(** * Logistic growth: Euler, improved Euler and Runge-Kutta 4

    A shallow embedding of the numerical core of the repository:

    - [src/unnamed/part_000], lines 9-71: [modeloLogistico], [solucaoExata]
      and the inline integrators [euler], [eulerAprimorado], [rungeKutta4]
      of the component [ModeloLogisticoMultiplo] (module [Inline]);
    - [src/app/utils/metodoRungeKutta4.ts]: the three integrators of the
      utils directory, which round the stored time (module [Utils]);
    - [src/unnamed/part_000], lines 107-144 and 452-497: the [dados]
      computations of the two components (modules [Multiplo], [Corrigido]);
    - [src/unnamed/part_000], lines 736 and 740: the error ratio cells.

    JavaScript numbers are IEEE 754 binary64 values.  The code is written
    once, over an interface [Numero] of the operators it uses, and run on
    two carriers: the real numbers (exact arithmetic, the reading of the
    specification, whose parameters are "positive reals") and Rocq's
    primitive binary64 floats (the arithmetic JavaScript performs).

    Every [for] loop is modelled with fuel: one unit per evaluation of the
    loop condition; [None] is "still running when the fuel ran out". *)

From Stdlib Require Import String.
From Stdlib Require Import ZArith List Bool Lia.
From Stdlib Require Import Reals Lra.
From Stdlib Require Import PrimFloat FloatOps SpecFloat Uint63.
From Stdlib Require DecimalNat DecimalString.
Import ListNotations.

Set Implicit Arguments.

(** ** The number interface *)

(** The operators and library calls of the source, on a carrier [num].
    [toFixed6 x] is the round trip [parseFloat(x.toFixed(6))]. *)
Class Numero (num : Type) : Type := {
  lit : Z -> num;                 (* an integer literal: 0, 1, 2, 6 *)
  add : num -> num -> num;        (* x + y *)
  sub : num -> num -> num;        (* x - y *)
  mul : num -> num -> num;        (* x * y *)
  div : num -> num -> num;        (* x / y *)
  neg : num -> num;               (* -x *)
  lt : num -> num -> bool;        (* x < y *)
  floor : num -> num;             (* Math.floor(x) *)
  toFixed6 : num -> num           (* parseFloat(x.toFixed(6)) *)
}.

(** The other members of the [Math] object the source calls. *)
Class MathObj (num : Type) : Type := {
  Math_exp : num -> num;          (* Math.exp(x) *)
  Math_abs : num -> num;          (* Math.abs(x) *)
  Math_max : num -> num -> num    (* Math.max(x, y) *)
}.

Declare Scope js_scope.
Delimit Scope js_scope with js.
Notation "x + y" := (add x y) : js_scope.
Notation "x - y" := (sub x y) : js_scope.
Notation "x * y" := (mul x y) : js_scope.
Notation "x / y" := (div x y) : js_scope.
Notation "- x" := (neg x) : js_scope.
Notation "x <? y" := (lt x y) : js_scope.

(** The option monad of the fuelled loops. *)
Notation "'seja' x '<-' c ';' k" := (match c with Some x => k | None => None end)
  (at level 60, x pattern, c at level 0, right associativity).

(** A trajectory point, the object literal [{ t, y }]. *)
Record Ponto (num : Type) : Type := mkPonto { t : num; y : num }.

(** An initial condition of the components' state, [{ y0, ativo }]. *)
Record Condicao (num : Type) : Type := mkCondicao { y0 : num; ativo : bool }.

(** One entry of [todasSolucoes]: the object literal of part_000:121-128 and
    464-471, with fields [y0], [idx], [exata], [euler], [eulerApr], [rk4]. *)
Record Solucao (num : Type) : Type := mkSolucao {
  sol_y0 : num;
  sol_idx : nat;
  sol_exata : list num;
  sol_euler : list num;
  sol_eulerApr : list num;
  sol_rk4 : list num
}.

(** The three running maxima of part_000:487. *)
Record Erros (num : Type) : Type := mkErros {
  erroMaxEuler : num;
  erroMaxEulerApr : num;
  erroMaxRK4 : num
}.

Unset Implicit Arguments.

Section Modelo.

Context {num : Type} `{Numero num}.
Local Open Scope js_scope.

(** A [for (let i = 0; i < n; i++)] loop over a state [St]: [corpo i s] is one
    run of the body at counter [i].  The counter is a number of the carrier,
    as in the source. *)
Fixpoint laco {St : Type} (fuel : nat) (n : num) (corpo : num -> St -> St)
    (i : num) (s : St) : option St :=
  match fuel with
  | O => None
  | S fuel' =>
      if i <? n then laco fuel' n corpo (i + lit 1) (corpo i s) else Some s
  end.

(** The value of the counter after [k] increments. *)
Fixpoint conta (k : nat) : num :=
  match k with
  | O => lit 0
  | S k' => conta k' + lit 1
  end.

(** The loop [for (i = 0; i < n; i++)] runs its body exactly [N] times. *)
Definition voltas (n : num) (N : nat) : bool :=
  forallb (fun k => conta k <? n) (seq 0 N) && negb (conta N <? n).

End Modelo.

Module Inline.
Section Inline.

Context {num : Type} `{Numero num}.
Local Open Scope js_scope.

(** part_000:9-11.  [t] is accepted and not used. *)
Definition modeloLogistico (t y r K : num) : num :=
  r * y * (lit 1 - y / K).

(** part_000:26-31, the loop of [euler]. *)
Fixpoint euler_for (fuel : nat) (r K h n i y t : num)
    (resultado : list (Ponto num)) : option (list (Ponto num)) :=
  match fuel with
  | O => None
  | S fuel' =>
      if i <? n then
        let dydt := modeloLogistico t y r K in
        let y := y + h * dydt in
        let t := t + h in
        let resultado := resultado ++ [{| t := t; y := y |}] in
        euler_for fuel' r K h n (i + lit 1) y t resultado
      else Some resultado
  end.

(** part_000:19-33. *)
Definition euler (fuel : nat) (r K y0 tf h : num) : option (list (Ponto num)) :=
  let n := floor (tf / h) in
  let resultado := [] in
  let y := y0 in
  let t := lit 0 in
  let resultado := resultado ++ [{| t := t; y := y |}] in
  euler_for fuel r K h n (lit 0) y t resultado.

(** part_000:43-49, the loop of [eulerAprimorado]. *)
Fixpoint eulerAprimorado_for (fuel : nat) (r K h n i y t : num)
    (resultado : list (Ponto num)) : option (list (Ponto num)) :=
  match fuel with
  | O => None
  | S fuel' =>
      if i <? n then
        let k1 := modeloLogistico t y r K in
        let k2 := modeloLogistico (t + h) (y + h * k1) r K in
        let y := y + (h / lit 2) * (k1 + k2) in
        let t := t + h in
        let resultado := resultado ++ [{| t := t; y := y |}] in
        eulerAprimorado_for fuel' r K h n (i + lit 1) y t resultado
      else Some resultado
  end.

(** part_000:36-51. *)
Definition eulerAprimorado (fuel : nat) (r K y0 tf h : num)
    : option (list (Ponto num)) :=
  let n := floor (tf / h) in
  let resultado := [] in
  let y := y0 in
  let t := lit 0 in
  let resultado := resultado ++ [{| t := t; y := y |}] in
  eulerAprimorado_for fuel r K h n (lit 0) y t resultado.

(** part_000:61-69, the loop of [rungeKutta4]. *)
Fixpoint rungeKutta4_for (fuel : nat) (r K h n i y t : num)
    (resultado : list (Ponto num)) : option (list (Ponto num)) :=
  match fuel with
  | O => None
  | S fuel' =>
      if i <? n then
        let k1 := modeloLogistico t y r K in
        let k2 := modeloLogistico (t + h / lit 2) (y + (h / lit 2) * k1) r K in
        let k3 := modeloLogistico (t + h / lit 2) (y + (h / lit 2) * k2) r K in
        let k4 := modeloLogistico (t + h) (y + h * k3) r K in
        let y := y + (h / lit 6) * (k1 + lit 2 * k2 + lit 2 * k3 + k4) in
        let t := t + h in
        let resultado := resultado ++ [{| t := t; y := y |}] in
        rungeKutta4_for fuel' r K h n (i + lit 1) y t resultado
      else Some resultado
  end.

(** part_000:54-71. *)
Definition rungeKutta4 (fuel : nat) (r K y0 tf h : num)
    : option (list (Ponto num)) :=
  let n := floor (tf / h) in
  let resultado := [] in
  let y := y0 in
  let t := lit 0 in
  let resultado := resultado ++ [{| t := t; y := y |}] in
  rungeKutta4_for fuel r K h n (lit 0) y t resultado.

(** part_000:14-16. *)
Definition solucaoExata `{MathObj num} (t r K y0 : num) : num :=
  (K * y0) / (y0 + (K - y0) * Math_exp (- r * t)).

End Inline.
End Inline.

Module Utils.
Section Utils.

Context {num : Type} `{Numero num}.
Local Open Scope js_scope.

(** Modelled from the spec: the module [./modeloLogistico] that the files of
    the utils directory import is not among the sources.  Section 4.1 gives
    f(t, y, r, K) = r·y·(1 − y/K), with [t] accepted and unused; this is also
    the inline definition of part_000:9-11. *)
Definition modeloLogistico (t y r K : num) : num :=
  r * y * (lit 1 - y / K).

(** Modelled from the spec: the module [~/utils/solucaoExata] imported by
    [ModeloLogisticoCorrigido] is not among the sources.  Section 4.2 gives
    exact(t, r, K, y0) = K·y0 / (y0 + (K − y0)·e^(−r·t)); this is also the
    inline definition of part_000:14-16. *)
Definition solucaoExata `{MathObj num} (t r K y0 : num) : num :=
  (K * y0) / (y0 + (K - y0) * Math_exp (- r * t)).

(** metodoRungeKutta4.ts:10-18, the loop of [rungeKutta4]. *)
Fixpoint rungeKutta4_for (fuel : nat) (r K h n i y t : num)
    (resultado : list (Ponto num)) : option (list (Ponto num)) :=
  match fuel with
  | O => None
  | S fuel' =>
      if i <? n then
        let k1 := modeloLogistico t y r K in
        let k2 := modeloLogistico (t + h / lit 2) (y + (h / lit 2) * k1) r K in
        let k3 := modeloLogistico (t + h / lit 2) (y + (h / lit 2) * k2) r K in
        let k4 := modeloLogistico (t + h) (y + h * k3) r K in
        let y := y + (h / lit 6) * (k1 + lit 2 * k2 + lit 2 * k3 + k4) in
        let t := t + h in
        let resultado := resultado ++ [{| t := toFixed6 t; y := y |}] in
        rungeKutta4_for fuel' r K h n (i + lit 1) y t resultado
      else Some resultado
  end.

(** metodoRungeKutta4.ts:3-20. *)
Definition rungeKutta4 (fuel : nat) (r K y0 tf h : num)
    : option (list (Ponto num)) :=
  let n := floor (tf / h) in
  let resultado := [] in
  let y := y0 in
  let t := lit 0 in
  let resultado := resultado ++ [{| t := t; y := y |}] in
  rungeKutta4_for fuel r K h n (lit 0) y t resultado.

(** metodoRungeKutta4.ts:31-36, the loop of [euler]. *)
Fixpoint euler_for (fuel : nat) (r K h n i y t : num)
    (resultado : list (Ponto num)) : option (list (Ponto num)) :=
  match fuel with
  | O => None
  | S fuel' =>
      if i <? n then
        let dydt := modeloLogistico t y r K in
        let y := y + h * dydt in
        let t := t + h in
        let resultado := resultado ++ [{| t := toFixed6 t; y := y |}] in
        euler_for fuel' r K h n (i + lit 1) y t resultado
      else Some resultado
  end.

(** metodoRungeKutta4.ts:24-38. *)
Definition euler (fuel : nat) (r K y0 tf h : num) : option (list (Ponto num)) :=
  let n := floor (tf / h) in
  let resultado := [] in
  let y := y0 in
  let t := lit 0 in
  let resultado := resultado ++ [{| t := t; y := y |}] in
  euler_for fuel r K h n (lit 0) y t resultado.

(** metodoRungeKutta4.ts:45-51, the loop of [eulerAprimorado]. *)
Fixpoint eulerAprimorado_for (fuel : nat) (r K h n i y t : num)
    (resultado : list (Ponto num)) : option (list (Ponto num)) :=
  match fuel with
  | O => None
  | S fuel' =>
      if i <? n then
        let k1 := modeloLogistico t y r K in
        let k2 := modeloLogistico (t + h) (y + h * k1) r K in
        let y := y + (h / lit 2) * (k1 + k2) in
        let t := t + h in
        let resultado := resultado ++ [{| t := toFixed6 t; y := y |}] in
        eulerAprimorado_for fuel' r K h n (i + lit 1) y t resultado
      else Some resultado
  end.

(** metodoRungeKutta4.ts:38-53. *)
Definition eulerAprimorado (fuel : nat) (r K y0 tf h : num)
    : option (list (Ponto num)) :=
  let n := floor (tf / h) in
  let resultado := [] in
  let y := y0 in
  let t := lit 0 in
  let resultado := resultado ++ [{| t := t; y := y |}] in
  eulerAprimorado_for fuel r K h n (lit 0) y t resultado.

End Utils.
End Utils.

(** ** The two components' [dados] *)

Section Componentes.

Context {num : Type} `{Numero num} `{MathObj num}.
Local Open Scope js_scope.

(** [Array.from({ length: len }, (_, i) => f(i))]: the entries [f(0)],
    [f(1)], ... while the index is below [len].  The source calls it with
    [len = Math.floor(tf / h) + 1], an integer when it is finite; for NaN
    the array is empty, as here.  For an infinite [len] JavaScript throws a
    RangeError and this loop does not end: neither returns an array. *)
Definition Array_from {A : Type} (fuel : nat) (len : num) (f : num -> A)
    : option (list A) :=
  laco fuel len (fun i acc => acc ++ [f i]) (lit 0) [].

(** [xs.map((x, idx) => f(x, idx))] for a callback that runs fuelled loops. *)
Fixpoint map_idx {A B : Type} (f : A -> nat -> option B) (xs : list A)
    (idx : nat) : option (list B) :=
  match xs with
  | [] => Some []
  | x :: xs' =>
      seja b <- (f x idx);
      seja bs <- (map_idx f xs' (S idx));
      Some (b :: bs)
  end.

(** part_000:489-493, [sol.exata.forEach((ex, i) => ...)] from index [i] on.
    A read [sol.euler[i]] past the end of the array is [undefined] in
    JavaScript and turns the maximum into NaN; here it ends the computation
    with [None]. *)
Fixpoint erros_exata (sol : Solucao num) (exata : list num) (i : nat)
    (e : Erros num) : option (Erros num) :=
  match exata with
  | [] => Some e
  | ex :: resto =>
      seja ve <- (nth_error (sol_euler sol) i);
      seja va <- (nth_error (sol_eulerApr sol) i);
      seja vr <- (nth_error (sol_rk4 sol) i);
      erros_exata sol resto (S i)
        {| erroMaxEuler := Math_max (erroMaxEuler e) (Math_abs (ve - ex));
           erroMaxEulerApr := Math_max (erroMaxEulerApr e) (Math_abs (va - ex));
           erroMaxRK4 := Math_max (erroMaxRK4 e) (Math_abs (vr - ex)) |}
  end.

(** part_000:488-494, [todasSolucoes.forEach(sol => ...)]. *)
Fixpoint erros_todas (todasSolucoes : list (Solucao num)) (e : Erros num)
    : option (Erros num) :=
  match todasSolucoes with
  | [] => Some e
  | sol :: resto =>
      seja e' <- (erros_exata sol (sol_exata sol) 0 e);
      erros_todas resto e'
  end.

(** part_000:736 and 740: the text of an error ratio cell,
    [{erroMaxRK4 > 0 ? (erro / erroMaxRK4).toFixed(0) : '∞'}x].
    [toFixed0 q] is the string [q.toFixed(0)]. *)
Definition razao (toFixed0 : num -> string) (erro erroRK4 : num) : string :=
  String.append (if lit 0 <? erroRK4 then toFixed0 (erro / erroRK4) else "∞"%string)
                "x"%string.

End Componentes.

Module Multiplo.
Section Multiplo.

Context {num : Type} `{Numero num} `{MathObj num}.
Local Open Scope js_scope.

(** What [dados] returns, without [dadosGrafico] (the same values keyed by
    strings for the chart). *)
Record Dados : Type := mkDados {
  todasSolucoes : list (Solucao num);
  tempos : list num
}.

(** part_000:111-112, the time grid [tempos]. *)
Definition grade (fuel : nat) (tf h : num) : option (list num) :=
  let nPontos := floor (tf / h) + lit 1 in
  Array_from fuel nPontos (fun i => i * h).

(** part_000:107-144, the [useMemo] callback of [ModeloLogisticoMultiplo]. *)
Definition dados (fuel : nat) (r K tf h : num) (condicoes : list (Condicao num))
    : option Dados :=
  let condicoesAtivas := filter (fun c => ativo c) condicoes in
  seja tempos <- (grade fuel tf h);
  seja todasSolucoes <-
    (map_idx (fun cond idx =>
       let exata := map (fun t => Inline.solucaoExata t r K (y0 cond)) tempos in
       seja eulerSol <- (Inline.euler fuel r K (y0 cond) tf h);
       seja eulerAprSol <- (Inline.eulerAprimorado fuel r K (y0 cond) tf h);
       seja rk4Sol <- (Inline.rungeKutta4 fuel r K (y0 cond) tf h);
       Some {| sol_y0 := y0 cond;
               sol_idx := idx;
               sol_exata := exata;
               sol_euler := map (fun p => y p) eulerSol;
               sol_eulerApr := map (fun p => y p) eulerAprSol;
               sol_rk4 := map (fun p => y p) rk4Sol |})
      condicoesAtivas 0);
  Some {| todasSolucoes := todasSolucoes; tempos := tempos |}.

End Multiplo.
End Multiplo.

Module Corrigido.
Section Corrigido.

Context {num : Type} `{Numero num} `{MathObj num}.
Local Open Scope js_scope.

(** What [dados] returns, without [dadosGrafico]. *)
Record Dados : Type := mkDados {
  todasSolucoes : list (Solucao num);
  tempos : list num;
  erros : Erros num
}.

(** part_000:454-455, the time grid [tempos]. *)
Definition grade (fuel : nat) (tf h : num) : option (list num) :=
  let nPontos := floor (tf / h) + lit 1 in
  Array_from fuel nPontos (fun i => toFixed6 (i * h)).

(** part_000:452-497, the [useMemo] callback of [ModeloLogisticoCorrigido].
    Its integrators and [solucaoExata] are the imports of part_000:414-417. *)
Definition dados (fuel : nat) (r K tf h : num) (condicoes : list (Condicao num))
    : option Dados :=
  let condicoesAtivas := filter (fun c => ativo c) condicoes in
  seja tempos <- (grade fuel tf h);
  seja todasSolucoes <-
    (map_idx (fun cond idx =>
       let exata := map (fun t => Utils.solucaoExata t r K (y0 cond)) tempos in
       seja eulerRes <- (Utils.euler fuel r K (y0 cond) tf h);
       seja eulerAprRes <- (Utils.eulerAprimorado fuel r K (y0 cond) tf h);
       seja rk4Res <- (Utils.rungeKutta4 fuel r K (y0 cond) tf h);
       Some {| sol_y0 := y0 cond;
               sol_idx := idx;
               sol_exata := exata;
               sol_euler := map (fun p => y p) eulerRes;
               sol_eulerApr := map (fun p => y p) eulerAprRes;
               sol_rk4 := map (fun p => y p) rk4Res |})
      condicoesAtivas 0);
  seja e <- (erros_todas todasSolucoes
               {| erroMaxEuler := lit 0; erroMaxEulerApr := lit 0;
                  erroMaxRK4 := lit 0 |});
  Some {| todasSolucoes := todasSolucoes; tempos := tempos; erros := e |}.

End Corrigido.
End Corrigido.

(** ** The carriers *)

(** *** Real numbers: exact arithmetic *)

Definition R_lt (x y : R) : bool := if Rlt_dec x y then true else false.

(** [x.toFixed(6)] is the decimal n/10^6 for the integer n nearest to
    |x|·10^6 (the larger one on a tie), with the sign of x; from 10^21 on it
    is the shortest decimal that reads back as x.  [parseFloat] reads the
    decimal back, here without rounding. *)
Definition R_toFixed6 (x : R) : R :=
  if Rle_dec (10 ^ 21) (Rabs x) then x
  else if Rlt_dec x 0 then (- (IZR (Zfloor (- x * 10 ^ 6 + / 2)) / 10 ^ 6))%R
  else (IZR (Zfloor (x * 10 ^ 6 + / 2)) / 10 ^ 6)%R.

#[export] Instance Numero_R : Numero R := {
  lit := IZR;
  add := Rplus;
  sub := Rminus;
  mul := Rmult;
  div := Rdiv;
  neg := Ropp;
  lt := R_lt;
  floor := fun x => IZR (Zfloor x);
  toFixed6 := R_toFixed6
}.

#[export] Instance MathObj_R : MathObj R := {
  Math_exp := exp;
  Math_abs := Rabs;
  Math_max := Rmax
}.

(** *** Binary64 floats: the arithmetic of JavaScript *)

(** An integer literal below 2^53 in absolute value, which binary64 holds
    exactly. *)
Definition float_lit (z : Z) : float :=
  if (z <? 0)%Z then (- of_uint63 (of_Z (- z)))%float else of_uint63 (of_Z z).

(** [Math.floor]: NaN, the infinities and the zeros are returned as they
    are; m·2^e with e >= 0 is an integer; otherwise the mantissa is shifted
    right, and rounded towards minus infinity for a negative number. *)
Definition float_floor (x : float) : float :=
  match Prim2SF x with
  | S754_finite s m e =>
      if (0 <=? e)%Z then x
      else
        let d := (2 ^ (- e))%Z in
        let q := (Zpos m / d)%Z in
        if s then
          if (q * d =? Zpos m)%Z then float_lit (- q) else float_lit (- (q + 1))
        else float_lit q
  | _ => x
  end.

(** [parseFloat(x.toFixed(6))].  For |x| < 10^21, [toFixed] prints n/10^6
    where n is the integer nearest to |x|·10^6 (the larger on a tie), and
    [parseFloat] returns the binary64 nearest to that decimal: for n < 2^53
    it is the quotient of the two exact floats n and 10^6, which the division
    rounds correctly; for larger n the spacing of the floats around x exceeds
    10^-6 and the nearest one is x itself.  Both zeros print "0.000000";
    NaN and the infinities print their names and read back as themselves. *)
Definition float_toFixed6 (x : float) : float :=
  match Prim2SF x with
  | S754_finite s m e =>
      if (1e21 <=? abs x)%float then x
      else
        let n :=
          if (0 <=? e)%Z then (Zpos m * 2 ^ e * 10 ^ 6)%Z
          else ((2 * Zpos m * 10 ^ 6 + 2 ^ (- e)) / 2 ^ (- e + 1))%Z in
        if (n <? 2 ^ 53)%Z then
          let q := (of_uint63 (of_Z n) / 1000000)%float in
          if s then (- q)%float else q
        else x
  | S754_zero _ => 0%float
  | _ => x
  end.

#[export] Instance Numero_float : Numero float := {
  lit := float_lit;
  add := PrimFloat.add;
  sub := PrimFloat.sub;
  mul := PrimFloat.mul;
  div := PrimFloat.div;
  neg := PrimFloat.opp;
  lt := PrimFloat.ltb;
  floor := float_floor;
  toFixed6 := float_toFixed6
}.

(** A float is finite: neither NaN nor an infinity. *)
Definition finito (x : float) : bool :=
  match Prim2SF x with
  | S754_zero _ | S754_finite _ _ _ => true
  | _ => false
  end.

(** ** Definitions used by the statements *)

Section Recorrencias.

Context {num : Type} `{Numero num}.
Local Open Scope js_scope.

(** The time variable [t] after [k] runs of a loop body: [k] additions of
    [h] to the literal 0. *)
Fixpoint tempo (h : num) (k : nat) : num :=
  match k with
  | O => lit 0
  | S k' => tempo h k' + h
  end.

(** The variable [y] after [k] runs of a loop body that replaces [y] by
    [passo t y]. *)
Fixpoint valor (passo : num -> num -> num) (h y0 : num) (k : nat) : num :=
  match k with
  | O => y0
  | S k' => passo (tempo h k') (valor passo h y0 k')
  end.

(** The update of [y] in one run of each loop body. *)
Definition passo_euler (r K h t y : num) : num :=
  let dydt := Inline.modeloLogistico t y r K in
  y + h * dydt.

Definition passo_eulerAprimorado (r K h t y : num) : num :=
  let k1 := Inline.modeloLogistico t y r K in
  let k2 := Inline.modeloLogistico (t + h) (y + h * k1) r K in
  y + (h / lit 2) * (k1 + k2).

Definition passo_rungeKutta4 (r K h t y : num) : num :=
  let k1 := Inline.modeloLogistico t y r K in
  let k2 := Inline.modeloLogistico (t + h / lit 2) (y + (h / lit 2) * k1) r K in
  let k3 := Inline.modeloLogistico (t + h / lit 2) (y + (h / lit 2) * k2) r K in
  let k4 := Inline.modeloLogistico (t + h) (y + h * k3) r K in
  y + (h / lit 6) * (k1 + lit 2 * k2 + lit 2 * k3 + k4).

(** The six loops are instances of one: [passo] is the update of [y] and
    [guarda] what is stored as the time of a point. *)
Fixpoint integra_for (guarda : num -> num) (passo : num -> num -> num)
    (fuel : nat) (h n i y t : num) (resultado : list (Ponto num))
    : option (list (Ponto num)) :=
  match fuel with
  | O => None
  | S fuel' =>
      if i <? n then
        let y := passo t y in
        let t := t + h in
        integra_for guarda passo fuel' h n (i + lit 1) y t
          (resultado ++ [{| t := guarda t; y := y |}])
      else Some resultado
  end.

(** The points a loop leaves behind after [N] runs, first point included. *)
Definition pontos (guarda : num -> num) (passo : num -> num -> num)
    (h y0 : num) (N : nat) : list (Ponto num) :=
  {| t := lit 0; y := y0 |}
  :: map (fun k => {| t := guarda (tempo h k); y := valor passo h y0 k |})
         (seq 1 N).

(** A list of [N + 1] points whose [y] follows the recurrence
    y_(i+1) = [prox i y_i] for every step [i] below [N]. *)
Definition recorrencia (prox : nat -> num -> num) (N : nat)
    (l : list (Ponto num)) : Prop :=
  length l = S N /\
  forall i, (i < N)%nat ->
    exists p q, nth_error l i = Some p /\ nth_error l (S i) = Some q /\
                y q = prox i (y p).

End Recorrencias.

(** ** The integrators, by name *)

(** The three methods, and the two places each is written in: inline in
    part_000 (lines 19-71) and in the utils directory. *)
Inductive Metodo : Type := Euler | EulerAprimorado | RungeKutta4.
Inductive Versao : Type := EmLinha | DeUtils.

Section Integradores.

Context {num : Type} `{Numero num}.
Local Open Scope js_scope.

Definition integrador (v : Versao) (m : Metodo)
    : nat -> num -> num -> num -> num -> num -> option (list (Ponto num)) :=
  match v, m with
  | EmLinha, Euler => Inline.euler
  | EmLinha, EulerAprimorado => Inline.eulerAprimorado
  | EmLinha, RungeKutta4 => Inline.rungeKutta4
  | DeUtils, Euler => Utils.euler
  | DeUtils, EulerAprimorado => Utils.eulerAprimorado
  | DeUtils, RungeKutta4 => Utils.rungeKutta4
  end.

(** The update of [y] in the loop body of a method. *)
Definition passo_de (m : Metodo) : num -> num -> num -> num -> num -> num :=
  match m with
  | Euler => passo_euler
  | EulerAprimorado => passo_eulerAprimorado
  | RungeKutta4 => passo_rungeKutta4
  end.

(** What a loop body stores as the time of a point: the variable [t] inline,
    [parseFloat(t.toFixed(6))] in the utils directory. *)
Definition guarda_de (v : Versao) : num -> num :=
  match v with
  | EmLinha => fun t => t
  | DeUtils => toFixed6
  end.

(** The time grid of the component that calls the integrators of a version:
    [ModeloLogisticoMultiplo] the inline ones, [ModeloLogisticoCorrigido]
    those of the utils directory. *)
Definition grade_de (v : Versao) : nat -> num -> num -> option (list num) :=
  match v with
  | EmLinha => Multiplo.grade
  | DeUtils => Corrigido.grade
  end.

(** The utils integrators store the first time as it is and round the
    others. *)
Definition arredonda_tempos (l : list (Ponto num)) : list (Ponto num) :=
  match l with
  | [] => []
  | p :: ps => p :: map (fun q => {| t := toFixed6 (t q); y := y q |}) ps
  end.

End Integradores.

(** ** The error summary, as the specification words it *)

Section Maximos.

Local Open Scope R_scope.

(** The absolute differences |numeric_y − analytic_y| of one initial
    condition, index by index. *)
Definition diferencas (numerico exata : list R) : list R :=
  map (fun p => Rabs (fst p - snd p)) (combine numerico exata).

(** [e] is the maximum of |numeric_y − analytic_y| over every solution of
    [sols] and every time index, for the method whose values [metodo]
    selects; it is 0 when [sols] is empty. *)
Definition maximo_dos_erros (sols : list (Solucao R))
    (metodo : Solucao R -> list R) (e : R) : Prop :=
  (forall sol i v ex,
     In sol sols ->
     nth_error (metodo sol) i = Some v ->
     nth_error (sol_exata sol) i = Some ex ->
     Rabs (v - ex) <= e) /\
  (sols <> [] ->
   exists sol i v ex,
     In sol sols /\
     nth_error (metodo sol) i = Some v /\
     nth_error (sol_exata sol) i = Some ex /\
     e = Rabs (v - ex)) /\
  (sols = [] -> e = 0).

(** The entry of [todasSolucoes] for the initial condition [c] at position
    [idx], over the reals: the analytic solution on the rounded grid and the
    [y] of the points of the three utils integrators. *)
Definition solucao_R (r K tf h : R) (c : Condicao R) (idx : nat) : Solucao R :=
  let N := Z.to_nat (Zfloor (tf / h)) in
  {| sol_y0 := y0 c;
     sol_idx := idx;
     sol_exata :=
       map (fun t => Utils.solucaoExata t r K (y0 c))
           (map (fun k => toFixed6 (INR k * h)) (seq 0 (S N)));
     sol_euler :=
       map (fun p => y p) (pontos toFixed6 (passo_euler r K h) h (y0 c) N);
     sol_eulerApr :=
       map (fun p => y p)
           (pontos toFixed6 (passo_eulerAprimorado r K h) h (y0 c) N);
     sol_rk4 :=
       map (fun p => y p)
           (pontos toFixed6 (passo_rungeKutta4 r K h) h (y0 c) N) |}.

End Maximos.

(** ** The solutions of [ModeloLogisticoMultiplo] over the reals *)

Section Multiplo_R.

Local Open Scope R_scope.

(** The entry of [todasSolucoes] that [Multiplo.dados] builds for the initial
    condition [c] at position [idx]: the analytic solution on the grid i·h
    and the [y] of the points of the three inline integrators. *)
Definition solucao_Multiplo_R (r K tf h : R) (c : Condicao R) (idx : nat)
    : Solucao R :=
  let N := Z.to_nat (Zfloor (tf / h)) in
  {| sol_y0 := y0 c;
     sol_idx := idx;
     sol_exata :=
       map (fun t => Inline.solucaoExata t r K (y0 c))
           (map (fun k => INR k * h) (seq 0 (S N)));
     sol_euler :=
       map (fun p => y p) (pontos (fun t => t) (passo_euler r K h) h (y0 c) N);
     sol_eulerApr :=
       map (fun p => y p)
           (pontos (fun t => t) (passo_eulerAprimorado r K h) h (y0 c) N);
     sol_rk4 :=
       map (fun p => y p)
           (pontos (fun t => t) (passo_rungeKutta4 r K h) h (y0 c) N) |}.

End Multiplo_R.

(** ** The state of the initial conditions *)

(** An object of the array [condicoes], with each of its two properties
    present or not: [{ y0, ativo }], [{ ativo }], [{ y0 }] or [{}]. *)
Record Objeto (num : Type) : Type := mkObjeto {
  o_y0 : option num;
  o_ativo : option bool
}.
Arguments mkObjeto {num}.
Arguments o_y0 {num}.
Arguments o_ativo {num}.

(** The two shapes of the arguments [campo, valor] at the call sites of
    [atualizarCondicao]: ['ativo'] with a boolean (part_000:200, 556) and
    ['y0'] with a number (part_000:207, 563). *)
Inductive Campo (num : Type) : Type :=
  | Campo_ativo (valor : bool)
  | Campo_y0 (valor : num).
Arguments Campo_ativo {num}.
Arguments Campo_y0 {num}.

(** What the form needs from a number besides arithmetic. *)
Class Formulario (num : Type) : Type := {
  verdadeiro : num -> bool;    (* ToBoolean(x): false for 0, -0 and NaN *)
  um_decimo : num              (* the literal 0.1 *)
}.

#[export] Instance Formulario_R : Formulario R := {
  verdadeiro := fun x => if Req_dec_T x 0 then false else true;
  um_decimo := (1 / 10)%R
}.

#[export] Instance Formulario_float : Formulario float := {
  verdadeiro := fun x =>
    match Prim2SF x with
    | S754_zero _ | S754_nan => false
    | _ => true
    end;
  um_decimo := 0x1.999999999999ap-4%float
}.

Section Condicoes.

Context {num : Type}.

(** An array of objects that may have holes: [None] is an index at which a
    read gives [undefined] (a hole, or an element that is [undefined]; the
    two read alike). *)
Definition Estado : Type := list (option (Objeto num)).

(** The state that holds the initial conditions [cs]. *)
Definition objeto_de (c : Condicao num) : Objeto num :=
  {| o_y0 := Some (y0 c); o_ativo := Some (ativo c) |}.

Definition estado_de (cs : list (Condicao num)) : Estado :=
  map (fun c => Some (objeto_de c)) cs.

(** The read [a[index]]: [undefined] at a hole and past the end. *)
Definition le (a : Estado) (index : nat) : option (Objeto num) :=
  match nth_error a index with
  | Some o => o
  | None => None
  end.

(** The write [a[index] = o]: past the end the array grows to
    [index + 1], with holes in between. *)
Fixpoint escreve (a : Estado) (index : nat) (o : Objeto num) : Estado :=
  match a, index with
  | [], O => [Some o]
  | [], S i => None :: escreve [] i o
  | _ :: a', O => Some o :: a'
  | x :: a', S i => x :: escreve a' i o
  end.

(** The object literal [{ ...o, [campo]: valor }]; spreading [undefined]
    adds no property. *)
Definition espalha (o : option (Objeto num)) (campo : Campo num) : Objeto num :=
  let base :=
    match o with
    | Some x => x
    | None => {| o_y0 := None; o_ativo := None |}
    end in
  match campo with
  | Campo_ativo valor => {| o_y0 := o_y0 base; o_ativo := Some valor |}
  | Campo_y0 valor => {| o_y0 := Some valor; o_ativo := o_ativo base |}
  end.

(** part_000:100-104 and 445-449.  The result is the array passed to
    [setCondicoes]; [condicoes] itself is not written to. *)
Definition atualizarCondicao (condicoes : Estado) (index : nat)
    (campo : Campo num) : Estado :=
  let novasCondicoes := condicoes in
  escreve novasCondicoes index (espalha (le novasCondicoes index) campo).

(** part_000:165 and 517. *)
Definition condicoesAtivasCount (condicoes : list (Condicao num)) : nat :=
  length (filter (fun c => ativo c) condicoes).

(** part_000:200 and 556, the [onChange] of the checkbox of row [idx]. *)
Definition aoMudarAtivo (condicoes : Estado) (idx : nat) (checked : bool)
    : Estado :=
  atualizarCondicao condicoes idx (Campo_ativo checked).

(** part_000:207 and 563, the [onChange] of the number field of row [idx]:
    [atualizarCondicao(idx, 'y0', parseFloat(e.target.value) || 0.1)], where
    [x] is the number [parseFloat] returned. *)
Definition aoMudarY0 `{Formulario num} (condicoes : Estado) (idx : nat)
    (x : num) : Estado :=
  atualizarCondicao condicoes idx
    (Campo_y0 (if verdadeiro x then x else um_decimo)).

(** The initial condition [c] with one property replaced. *)
Definition com_campo (c : Condicao num) (campo : Campo num) : Condicao num :=
  match campo with
  | Campo_ativo valor => {| y0 := y0 c; ativo := valor |}
  | Campo_y0 valor => {| y0 := valor; ativo := ativo c |}
  end.

End Condicoes.

(** ** The records of the chart *)

(** A value stored in a record of [dadosGrafico]: a number, the text of
    [t.toFixed(1)], or [undefined]. *)
Inductive Valor (num : Type) : Type :=
  | V_numero (x : num)
  | V_texto (s : string)
  | V_undefined.
Arguments V_numero {num}.
Arguments V_texto {num}.
Arguments V_undefined {num}.

(** The four series of a solution. *)
Inductive Serie : Type := S_exata | S_euler | S_eulerApr | S_rk4.

Section Grafico.

Context {num : Type}.

(** An object with string keys, its properties in insertion order. *)
Definition Registo : Type := list (string * Valor num).

(** The assignment [ponto[k] = v]: replaces the value of an existing
    property, adds a new property at the end. *)
Fixpoint atribui (k : string) (v : Valor num) (ponto : Registo) : Registo :=
  match ponto with
  | [] => [(k, v)]
  | (k', v') :: resto =>
      if String.eqb k' k then (k, v) :: resto
      else (k', v') :: atribui k v resto
  end.

(** The read [ponto[k]]; [None] when [ponto] has no property [k]. *)
Fixpoint propriedade (k : string) (ponto : Registo) : option (Valor num) :=
  match ponto with
  | [] => None
  | (k', v) :: resto =>
      if String.eqb k' k then Some v else propriedade k resto
  end.

(** The template literal [`${prefixo}${j}`] for an array index [j]. *)
Definition chave (prefixo : string) (j : nat) : string :=
  String.append prefixo
    (DecimalString.NilEmpty.string_of_uint (Nat.to_uint j)).

Definition prefixo (s : Serie) : string :=
  match s with
  | S_exata => "exata_"
  | S_euler => "euler_"
  | S_eulerApr => "eulerApr_"
  | S_rk4 => "rk4_"
  end.

Definition valores (s : Serie) (sol : Solucao num) : list num :=
  match s with
  | S_exata => sol_exata sol
  | S_euler => sol_euler sol
  | S_eulerApr => sol_eulerApr sol
  | S_rk4 => sol_rk4 sol
  end.

(** The read [xs[i]] of an array of numbers, as a stored value. *)
Definition elemento (xs : list num) (i : nat) : Valor num :=
  match nth_error xs i with
  | Some x => V_numero x
  | None => V_undefined
  end.

(** part_000:134-139 and 477-482, [todasSolucoes.forEach((sol, j) => ...)]
    from position [j] on, for the record of time index [i]. *)
Fixpoint preenche (todasSolucoes : list (Solucao num)) (j i : nat)
    (ponto : Registo) : Registo :=
  match todasSolucoes with
  | [] => ponto
  | sol :: resto =>
      let ponto := atribui (chave "exata_" j) (elemento (sol_exata sol) i) ponto in
      let ponto := atribui (chave "euler_" j) (elemento (sol_euler sol) i) ponto in
      let ponto :=
        atribui (chave "eulerApr_" j) (elemento (sol_eulerApr sol) i) ponto in
      let ponto := atribui (chave "rk4_" j) (elemento (sol_rk4 sol) i) ponto in
      preenche resto (S j) i ponto
  end.

(** part_000:132-141 and 475-484, [tempos.map((t, i) => ...)] from index
    [i] on; [t_de t] is the value stored under the key "t". *)
Fixpoint registos (t_de : num -> Valor num) (tempos : list num)
    (todasSolucoes : list (Solucao num)) (i : nat) : list Registo :=
  match tempos with
  | [] => []
  | t :: resto =>
      let ponto := [("t"%string, t_de t)] in
      preenche todasSolucoes 0 i ponto
      :: registos t_de resto todasSolucoes (S i)
  end.

End Grafico.

Module Grafico_Multiplo.

(** part_000:132-141: [dadosGrafico] of [ModeloLogisticoMultiplo], whose
    records begin with [{ t: t.toFixed(1) }]; [toFixed1 t] is that text. *)
Definition dadosGrafico {num : Type} (toFixed1 : num -> string)
    (tempos : list num) (todasSolucoes : list (Solucao num))
    : list (@Registo num) :=
  registos (fun t => V_texto (toFixed1 t)) tempos todasSolucoes 0.

End Grafico_Multiplo.

Module Grafico_Corrigido.

(** part_000:475-484: [dadosGrafico] of [ModeloLogisticoCorrigido], whose
    records begin with [{ t }]. *)
Definition dadosGrafico {num : Type} (tempos : list num)
    (todasSolucoes : list (Solucao num)) : list (@Registo num) :=
  registos (fun t => V_numero t) tempos todasSolucoes 0.

End Grafico_Corrigido.

(** ** Loops *)

Section Lacos.

Context {num : Type} `{Numero num}.
Local Open Scope js_scope.

Lemma voltas_spec (n : num) (N : nat) :
  voltas n N = true <->
  (forall k, (k < N)%nat -> (conta k <? n) = true) /\ (conta N <? n) = false.
Proof.
  unfold voltas. rewrite andb_true_iff, forallb_forall, negb_true_iff.
  split; intros [Hk HN]; split; auto.
  - intros k Hlt. apply Hk. apply in_seq. lia.
  - intros k Hin. apply Hk. apply in_seq in Hin. lia.
Qed.

(** A loop whose condition holds at the counters [j .. j+m-1] and fails at
    [j+m] runs its body [m] times and stops. *)
Lemma integra_for_voltas (guarda : num -> num) (passo : num -> num -> num)
    (h n y0 : num) (m : nat) :
  forall (j fuel : nat) (resultado : list (Ponto num)),
    (forall k, (k < m)%nat -> (conta (j + k) <? n) = true) ->
    (conta (j + m) <? n) = false ->
    (m < fuel)%nat ->
    integra_for guarda passo fuel h n (conta j) (valor passo h y0 j) (tempo h j)
      resultado
    = Some (resultado ++
            map (fun k => {| t := guarda (tempo h k); y := valor passo h y0 k |})
                (seq (S j) m)).
Proof.
  induction m as [|m IH]; intros j fuel resultado Hk Hm Hfuel.
  - destruct fuel as [|fuel]; [lia|]. simpl.
    rewrite Nat.add_0_r in Hm. rewrite Hm. now rewrite app_nil_r.
  - destruct fuel as [|fuel]; [lia|]. simpl integra_for.
    rewrite <- (Nat.add_0_r j) at 1. rewrite (Hk 0%nat) by lia.
    change (conta j + lit 1) with (conta (S j)).
    change (tempo h j + h) with (tempo h (S j)).
    change (passo (tempo h j) (valor passo h y0 j)) with (valor passo h y0 (S j)).
    rewrite (IH (S j) fuel).
    + rewrite <- app_assoc. reflexivity.
    + intros k Hlt. replace (S j + k)%nat with (j + S k)%nat by lia.
      apply Hk. lia.
    + replace (S j + m)%nat with (j + S m)%nat by lia. exact Hm.
    + lia.
Qed.

(** The same for [laco], whose body reads the counter. *)
Lemma laco_voltas {St : Type} (corpo : num -> St -> St) (n : num) (m : nat) :
  forall (j fuel : nat) (s : St),
    (forall k, (k < m)%nat -> (conta (j + k) <? n) = true) ->
    (conta (j + m) <? n) = false ->
    (m < fuel)%nat ->
    laco fuel n corpo (conta j) s
    = Some (fold_left (fun s k => corpo (conta k) s) (seq j m) s).
Proof.
  induction m as [|m IH]; intros j fuel s Hk Hm Hfuel.
  - destruct fuel as [|fuel]; [lia|]. simpl.
    rewrite Nat.add_0_r in Hm. now rewrite Hm.
  - destruct fuel as [|fuel]; [lia|]. simpl laco.
    rewrite <- (Nat.add_0_r j) at 1. rewrite (Hk 0%nat) by lia.
    change (conta j + lit 1) with (conta (S j)).
    rewrite (IH (S j) fuel).
    + reflexivity.
    + intros k Hlt. replace (S j + k)%nat with (j + S k)%nat by lia.
      apply Hk. lia.
    + replace (S j + m)%nat with (j + S m)%nat by lia. exact Hm.
    + lia.
Qed.

Lemma fold_left_snoc {A B : Type} (f : A -> B) (xs : list A) (acc : list B) :
  fold_left (fun acc x => acc ++ [f x]) xs acc = acc ++ map f xs.
Proof.
  revert acc. induction xs as [|x xs IH]; intro acc; simpl.
  - now rewrite app_nil_r.
  - rewrite IH, <- app_assoc. reflexivity.
Qed.

(** [Array.from] returns [f(0), ..., f(N-1)] when its loop runs [N] times. *)
Lemma Array_from_voltas {A : Type} (f : num -> A) (len : num) (N fuel : nat) :
  voltas len N = true -> (N < fuel)%nat ->
  Array_from fuel len f = Some (map (fun k => f (conta k)) (seq 0 N)).
Proof.
  intros Hv Hfuel. apply voltas_spec in Hv. destruct Hv as [Hk HN].
  unfold Array_from. change (lit 0) with (conta 0).
  rewrite (laco_voltas _ len N 0 fuel); auto.
  rewrite (fold_left_snoc (fun k => f (conta k))). reflexivity.
Qed.

(** Each loop of the source is [integra_for] at its own step and its own
    stored time. *)
Lemma Inline_euler_for_eq (r K h n : num) (fuel : nat) :
  forall i y t resultado,
    Inline.euler_for fuel r K h n i y t resultado
    = integra_for (fun t => t) (passo_euler r K h) fuel h n i y t resultado.
Proof.
  induction fuel as [|fuel IH]; intros; simpl; [reflexivity|].
  destruct (i <? n); [apply IH | reflexivity].
Qed.

Lemma Inline_eulerAprimorado_for_eq (r K h n : num) (fuel : nat) :
  forall i y t resultado,
    Inline.eulerAprimorado_for fuel r K h n i y t resultado
    = integra_for (fun t => t) (passo_eulerAprimorado r K h) fuel h n i y t
        resultado.
Proof.
  induction fuel as [|fuel IH]; intros; simpl; [reflexivity|].
  destruct (i <? n); [apply IH | reflexivity].
Qed.

Lemma Inline_rungeKutta4_for_eq (r K h n : num) (fuel : nat) :
  forall i y t resultado,
    Inline.rungeKutta4_for fuel r K h n i y t resultado
    = integra_for (fun t => t) (passo_rungeKutta4 r K h) fuel h n i y t
        resultado.
Proof.
  induction fuel as [|fuel IH]; intros; simpl; [reflexivity|].
  destruct (i <? n); [apply IH | reflexivity].
Qed.

Lemma Utils_euler_for_eq (r K h n : num) (fuel : nat) :
  forall i y t resultado,
    Utils.euler_for fuel r K h n i y t resultado
    = integra_for toFixed6 (passo_euler r K h) fuel h n i y t resultado.
Proof.
  induction fuel as [|fuel IH]; intros; simpl; [reflexivity|].
  destruct (i <? n); [apply IH | reflexivity].
Qed.

Lemma Utils_eulerAprimorado_for_eq (r K h n : num) (fuel : nat) :
  forall i y t resultado,
    Utils.eulerAprimorado_for fuel r K h n i y t resultado
    = integra_for toFixed6 (passo_eulerAprimorado r K h) fuel h n i y t
        resultado.
Proof.
  induction fuel as [|fuel IH]; intros; simpl; [reflexivity|].
  destruct (i <? n); [apply IH | reflexivity].
Qed.

Lemma Utils_rungeKutta4_for_eq (r K h n : num) (fuel : nat) :
  forall i y t resultado,
    Utils.rungeKutta4_for fuel r K h n i y t resultado
    = integra_for toFixed6 (passo_rungeKutta4 r K h) fuel h n i y t resultado.
Proof.
  induction fuel as [|fuel IH]; intros; simpl; [reflexivity|].
  destruct (i <? n); [apply IH | reflexivity].
Qed.

(** What an integrator returns when its loop runs [N] times. *)
Lemma integra_voltas (guarda : num -> num) (passo : num -> num -> num)
    (h n y0 : num) (N fuel : nat) :
  voltas n N = true -> (N < fuel)%nat ->
  integra_for guarda passo fuel h n (lit 0) y0 (lit 0)
    ([] ++ [{| t := lit 0; y := y0 |}])
  = Some (pontos guarda passo h y0 N).
Proof.
  intros Hv Hfuel. apply voltas_spec in Hv. destruct Hv as [Hk HN].
  change (lit 0) with (conta 0) at 1.
  change (lit 0) with (tempo h 0) at 1.
  change y0 with (valor passo h y0 0) at 1.
  rewrite (integra_for_voltas guarda passo h n y0 N); auto.
Qed.

Lemma integrador_voltas (v : Versao) (m : Metodo) (r K y0 tf h : num)
    (N fuel : nat) :
  voltas (floor (tf / h)) N = true -> (N < fuel)%nat ->
  integrador v m fuel r K y0 tf h
  = Some (pontos (guarda_de v) (passo_de m r K h) h y0 N).
Proof.
  intros Hv Hfuel.
  destruct v, m; simpl integrador; simpl guarda_de; simpl passo_de;
    [ unfold Inline.euler; rewrite Inline_euler_for_eq
    | unfold Inline.eulerAprimorado; rewrite Inline_eulerAprimorado_for_eq
    | unfold Inline.rungeKutta4; rewrite Inline_rungeKutta4_for_eq
    | unfold Utils.euler; rewrite Utils_euler_for_eq
    | unfold Utils.eulerAprimorado; rewrite Utils_eulerAprimorado_for_eq
    | unfold Utils.rungeKutta4; rewrite Utils_rungeKutta4_for_eq ];
    cbv zeta; apply integra_voltas; assumption.
Qed.

Lemma pontos_length (guarda : num -> num) (passo : num -> num -> num)
    (h y0 : num) (N : nat) :
  length (pontos guarda passo h y0 N) = S N.
Proof. unfold pontos. simpl. now rewrite length_map, length_seq. Qed.

Lemma pontos_primeiro (guarda : num -> num) (passo : num -> num -> num)
    (h y0 : num) (N : nat) :
  nth_error (pontos guarda passo h y0 N) 0 = Some {| t := lit 0; y := y0 |}.
Proof. reflexivity. Qed.

Lemma pontos_seguinte (guarda : num -> num) (passo : num -> num -> num)
    (h y0 : num) (N i : nat) :
  (i < N)%nat ->
  nth_error (pontos guarda passo h y0 N) (S i)
  = Some {| t := guarda (tempo h (S i)); y := valor passo h y0 (S i) |}.
Proof.
  intro Hlt. unfold pontos. simpl nth_error.
  rewrite nth_error_map, nth_error_seq.
  destruct (Nat.ltb_spec i N); [reflexivity | lia].
Qed.

Lemma pontos_recorrencia (guarda : num -> num) (passo : num -> num -> num)
    (h y0 : num) (N : nat) :
  recorrencia (fun i yi => passo (tempo h i) yi) N (pontos guarda passo h y0 N).
Proof.
  split; [apply pontos_length|].
  intros i Hlt. destruct i as [|i].
  - eexists _, _. rewrite pontos_primeiro, pontos_seguinte by lia.
    split; [reflexivity|]. split; reflexivity.
  - eexists _, _. rewrite !pontos_seguinte by lia.
    split; [reflexivity|]. split; reflexivity.
Qed.


(** The loop of a utils integrator builds the list of the inline loop with
    the times after the first rounded. *)
Lemma integra_for_arredonda (passo : num -> num -> num) (h n : num)
    (p0 : Ponto num) (fuel : nat) :
  forall (i y t : num) (resto : list (Ponto num)),
    integra_for toFixed6 passo fuel h n i y t (arredonda_tempos (p0 :: resto))
    = option_map arredonda_tempos
        (integra_for (fun t => t) passo fuel h n i y t (p0 :: resto)).
Proof.
  induction fuel as [|fuel IH]; intros i y t resto; simpl; [reflexivity|].
  destruct (i <? n); [|reflexivity].
  rewrite <- (IH _ _ _ (resto ++ [mkPonto (t + h) (passo t y)])).
  simpl. rewrite map_app. reflexivity.
Qed.

Lemma integrador_arredonda (m : Metodo) (r K y0 tf h : num) (fuel : nat) :
  integrador DeUtils m fuel r K y0 tf h
  = option_map arredonda_tempos (integrador EmLinha m fuel r K y0 tf h).
Proof.
  destruct m; simpl integrador;
    [ unfold Utils.euler, Inline.euler;
      rewrite Utils_euler_for_eq, Inline_euler_for_eq
    | unfold Utils.eulerAprimorado, Inline.eulerAprimorado;
      rewrite Utils_eulerAprimorado_for_eq, Inline_eulerAprimorado_for_eq
    | unfold Utils.rungeKutta4, Inline.rungeKutta4;
      rewrite Utils_rungeKutta4_for_eq, Inline_rungeKutta4_for_eq ];
    cbv zeta; simpl app;
    apply (integra_for_arredonda _ h _ _ fuel _ _ _ []).
Qed.

Lemma arredonda_tempos_nth (l : list (Ponto num)) (i : nat) (p : Ponto num) :
  nth_error l i = Some p ->
  nth_error (arredonda_tempos l) i
  = Some (if Nat.eqb i 0 then p else {| t := toFixed6 (t p); y := y p |}).
Proof.
  destruct l as [|p0 ps]; destruct i as [|i]; simpl; try discriminate; auto.
  intro Hp. rewrite nth_error_map, Hp. reflexivity.
Qed.

Lemma arredonda_tempos_y (l : list (Ponto num)) :
  map (fun p => y p) (arredonda_tempos l) = map (fun p => y p) l.
Proof.
  destruct l as [|p0 ps]; simpl; [reflexivity|].
  rewrite map_map. reflexivity.
Qed.

Lemma arredonda_tempos_length (l : list (Ponto num)) :
  length (arredonda_tempos l) = length l.
Proof. destruct l; simpl; [reflexivity|]. now rewrite length_map. Qed.

End Lacos.

(** ** Exact arithmetic *)

Section Reais.

Local Open Scope R_scope.

Lemma conta_R (k : nat) : conta k = INR k.
Proof.
  induction k as [|k IH]; [reflexivity|].
  rewrite S_INR, <- IH. reflexivity.
Qed.

Lemma R_lt_true (x y : R) : R_lt x y = true <-> x < y.
Proof. unfold R_lt. destruct (Rlt_dec x y); split; auto; discriminate. Qed.

Lemma R_lt_false (x y : R) : R_lt x y = false <-> y <= x.
Proof.
  unfold R_lt. destruct (Rlt_dec x y); split; auto; try discriminate; lra.
Qed.

(** Over the reals the loop [for (i = 0; i < z; i++)] runs [z] times for an
    integer [z >= 0] and not at all for [z < 0]. *)
Lemma voltas_R (z : Z) : voltas (IZR z) (Z.to_nat z) = true.
Proof.
  apply voltas_spec. split.
  - intros k Hlt. rewrite conta_R. apply R_lt_true.
    rewrite INR_IZR_INZ. apply IZR_lt. lia.
  - rewrite conta_R. apply R_lt_false.
    rewrite INR_IZR_INZ. apply IZR_le. lia.
Qed.

Lemma Zfloor_quociente (tf h : R) : 0 < h -> 0 < tf -> (0 <= Zfloor (tf / h))%Z.
Proof.
  intros Hh Htf. apply Zfloor_lub. simpl.
  apply Rlt_le, Rdiv_lt_0_compat; assumption.
Qed.

Lemma tempo_R (h : R) (k : nat) : tempo h k = INR k * h.
Proof.
  induction k as [|k IH]; simpl tempo.
  - simpl. lra.
  - rewrite IH, S_INR. simpl. lra.
Qed.

Lemma R_toFixed6_0 : R_toFixed6 0 = 0.
Proof.
  unfold R_toFixed6.
  destruct (Rle_dec (10 ^ 21) (Rabs 0)) as [Hbig | _].
  - rewrite Rabs_R0 in Hbig. pose proof (pow_lt 10 21). lra.
  - destruct (Rlt_dec 0 0) as [Hneg | _]; [lra|].
    rewrite (Zfloor_eq 0); [lra|]. simpl. lra.
Qed.

Lemma pow_10_21 : 10 ^ 21 = 1000000000000000000000.
Proof. rewrite pow_IZR. f_equal. Qed.

Lemma pow_10_6 : 10 ^ 6 = 1000000.
Proof. rewrite pow_IZR. f_equal. Qed.

(** Rounding to 6 decimals is monotone on the non-negative reals. *)
Lemma R_toFixed6_mono (x z : R) :
  0 <= x -> x <= z -> R_toFixed6 x <= R_toFixed6 z.
Proof.
  intros Hx Hxz. unfold R_toFixed6.
  rewrite !Rabs_pos_eq by lra. rewrite pow_10_21, pow_10_6.
  destruct (Rle_dec 1000000000000000000000 x) as [Hbx | Hsx];
    destruct (Rle_dec 1000000000000000000000 z) as [Hbz | Hsz]; try lra.
  - destruct (Rlt_dec x 0) as [Hneg | _]; [lra|].
    pose proof (Zfloor_bound (x * 1000000 + / 2)) as [Hlo _].
    assert (Hz : (Zfloor (x * 1000000 + / 2)
                  < 1000000000000000000000000000 + 1)%Z).
    { apply lt_IZR. rewrite plus_IZR. lra. }
    assert (Hle : IZR (Zfloor (x * 1000000 + / 2))
                  <= 1000000000000000000000000000).
    { apply IZR_le. lia. }
    lra.
  - destruct (Rlt_dec x 0) as [Hneg | _]; [lra|].
    destruct (Rlt_dec z 0) as [Hneg | _]; [lra|].
    assert (Hle : IZR (Zfloor (x * 1000000 + / 2))
                  <= IZR (Zfloor (z * 1000000 + / 2))).
    { apply IZR_le, Zfloor_le. lra. }
    lra.
Qed.

Lemma guarda_de_mono (v : Versao) (x z : R) :
  0 <= x -> x <= z -> guarda_de v x <= guarda_de v z.
Proof.
  intros Hx Hxz. destruct v; simpl; [exact Hxz | now apply R_toFixed6_mono].
Qed.

(** Over the reals the time stored in the point of index [i] is i·h, rounded
    by the utils integrators (the rounding of 0 is 0). *)
Lemma pontos_tempo_R (v : Versao) (passo : R -> R -> R) (h y0 : R) (N i : nat)
    (p : Ponto R) :
  nth_error (pontos (guarda_de v) passo h y0 N) i = Some p ->
  t p = guarda_de v (INR i * h).
Proof.
  intro Hp.
  assert (Hi : (i < S N)%nat).
  { rewrite <- (pontos_length (guarda_de v) passo h y0 N).
    apply nth_error_Some. rewrite Hp. discriminate. }
  destruct i as [|i].
  - rewrite pontos_primeiro in Hp. inversion Hp. simpl.
    rewrite Rmult_0_l. destruct v; simpl; [reflexivity|].
    symmetry. apply R_toFixed6_0.
  - rewrite pontos_seguinte in Hp by lia.
    assert (Hpt : p = {| t := guarda_de v (tempo h (S i));
                         y := valor passo h y0 (S i) |}) by congruence.
    rewrite Hpt. cbn [t]. now rewrite tempo_R.
Qed.

(** Over the reals the loop body never runs for tf <= 0 with h > 0, nor
    for tf > 0 with h < 0. *)
Lemma sem_voltas_R (tf h : R) :
  (tf <= 0 /\ 0 < h) \/ (0 < tf /\ h < 0) ->
  (lit 0 <? floor (tf / h))%js = false.
Proof.
  intro Hmal. apply R_lt_false. simpl.
  pose proof (Zfloor_bound (tf / h)) as [Hlo _].
  assert (Hq : tf / h <= 0).
  { unfold Rdiv. destruct Hmal as [[Htf Hh] | [Htf Hh]].
    - pose proof (Rinv_0_lt_compat h Hh). nra.
    - pose proof (Rinv_lt_0_compat h Hh). nra. }
  lra.
Qed.

End Reais.

(** ** The integrators over the reals *)

Section Integradores_R.

Local Open Scope R_scope.

(** Over the reals every integrator returns, and returns the points of its
    recurrence: the loop runs floor(tf/h) times (not at all when that is
    negative). *)
Lemma integrador_R (v : Versao) (m : Metodo) (r K y0 tf h : R) (fuel : nat) :
  (Z.to_nat (Zfloor (tf / h)) < fuel)%nat ->
  integrador v m fuel r K y0 tf h
  = Some (pontos (guarda_de v) (passo_de m r K h) h y0
            (Z.to_nat (Zfloor (tf / h)))).
Proof.
  intro Hfuel. apply integrador_voltas; [|assumption].
  apply (voltas_R (Zfloor (tf / h))).
Qed.




End Integradores_R.

(** ** The two versions of each integrator *)

Section Versoes_R.

Local Open Scope R_scope.


End Versoes_R.

(** ** The equilibrium y = K and the analytic solution *)

Section Equilibrio.

Local Open Scope R_scope.

Lemma modeloLogistico_no_equilibrio (t r K : R) :
  K <> 0 -> Inline.modeloLogistico t K r K = 0.
Proof.
  intro HK. unfold Inline.modeloLogistico. cbn. field. exact HK.
Qed.

Lemma passo_no_equilibrio (m : Metodo) (r K h t : R) :
  K <> 0 -> passo_de m r K h t K = K.
Proof.
  intro HK.
  destruct m; unfold passo_de, passo_euler, passo_eulerAprimorado,
    passo_rungeKutta4, Inline.modeloLogistico; cbn; field; exact HK.
Qed.

Lemma valor_no_equilibrio (m : Metodo) (r K h : R) (k : nat) :
  K <> 0 -> valor (passo_de m r K h) h K k = K.
Proof.
  intro HK. induction k as [|k IH]; simpl; [reflexivity|].
  rewrite IH. now apply passo_no_equilibrio.
Qed.

Lemma solucaoExata_no_equilibrio (t r K : R) :
  K <> 0 -> Inline.solucaoExata t r K K = K.
Proof.
  intro HK. unfold Inline.solucaoExata. cbn. field.
  replace (K + (K - K) * exp (- r * t)) with K by ring. exact HK.
Qed.




End Equilibrio.

(** ** The error ratio cells *)

Section Razao.

Local Open Scope R_scope.

(** C9: when the RK4 maximum error is exactly 0 both ratio cells show the
    marker "∞" and no quotient is formed; when it is strictly positive each
    cell shows the quotient of its maximum by the RK4 maximum, printed by
    [toFixed(0)]. *)
Theorem razao_marcador_ou_quociente (toFixed0 : R -> string) (e : Erros R) :
  (erroMaxRK4 e = 0 ->
     razao toFixed0 (erroMaxEuler e) (erroMaxRK4 e) = "∞x"%string /\
     razao toFixed0 (erroMaxEulerApr e) (erroMaxRK4 e) = "∞x"%string) /\
  (0 < erroMaxRK4 e ->
     razao toFixed0 (erroMaxEuler e) (erroMaxRK4 e)
     = String.append (toFixed0 (erroMaxEuler e / erroMaxRK4 e)) "x" /\
     razao toFixed0 (erroMaxEulerApr e) (erroMaxRK4 e)
     = String.append (toFixed0 (erroMaxEulerApr e / erroMaxRK4 e)) "x").
Proof.
  unfold razao. split; intro Hrk.
  - assert (Hlt : (lit 0 <? erroMaxRK4 e)%js = false).
    { apply R_lt_false. rewrite Hrk. apply Rle_refl. }
    rewrite Hlt. split; reflexivity.
  - assert (Hlt : (lit 0 <? erroMaxRK4 e)%js = true).
    { apply R_lt_true. exact Hrk. }
    rewrite Hlt. split; reflexivity.
Qed.

End Razao.

(** On binary64 floats the comparison [0 > 0] is false as well: a maximum
    that is exactly zero shows the marker. *)
Lemma razao_float_zero (toFixed0 : float -> string) (erro : float) :
  razao toFixed0 erro 0%float = "∞x"%string.
Proof. reflexivity. Qed.

(** ** Inputs outside the contract *)

Section SemValidacao.

Context {num : Type} `{Numero num}.
Local Open Scope js_scope.


End SemValidacao.

Section Float64.

Local Open Scope float_scope.



(** The equilibrium in binary64: started at y0 = K = 1 in the scenario, each
    of the six integrators returns 21 points with y equal to 1. *)
Lemma equilibrio_cenario_float :
  forallb
    (fun v =>
       forallb
         (fun m =>
            match integrador v m 21 0x1.999999999999ap-5 1 1 100 5 with
            | Some l =>
                Nat.eqb (length l) 21 && forallb (fun p => y p =? 1) l
            | None => false
            end)
         [Euler; EulerAprimorado; RungeKutta4])
    [EmLinha; DeUtils]
  = true.
Proof. vm_compute. reflexivity. Qed.


End Float64.

(** ** The stored time and the time grid *)

Section Tempos_R.

Local Open Scope R_scope.

(** Over the reals the grid of either component has floor(tf/h) + 1
    entries, the products i·h (rounded by [ModeloLogisticoCorrigido]). *)
Lemma grade_R (v : Versao) (tf h : R) (fuel : nat) :
  0 < h -> 0 < tf ->
  (S (Z.to_nat (Zfloor (tf / h))) < fuel)%nat ->
  grade_de v fuel tf h
  = Some (map (fun k => guarda_de v (INR k * h))
              (seq 0 (S (Z.to_nat (Zfloor (tf / h)))))).
Proof.
  intros Hh Htf Hfuel.
  pose proof (Zfloor_quociente tf h Hh Htf) as Hz.
  assert (Hv : voltas (floor (tf / h) + lit 1)%js
                 (S (Z.to_nat (Zfloor (tf / h)))) = true).
  { change (floor (tf / h) + lit 1)%js with (IZR (Zfloor (tf / h)) + IZR 1).
    rewrite <- plus_IZR.
    replace (S (Z.to_nat (Zfloor (tf / h))))
      with (Z.to_nat (Zfloor (tf / h) + 1)) by lia.
    apply voltas_R. }
  destruct v; simpl grade_de; simpl guarda_de.
  - unfold Multiplo.grade. cbv zeta.
    rewrite (Array_from_voltas _ _ _ _ Hv Hfuel).
    f_equal. apply map_ext. intro k. now rewrite conta_R.
  - unfold Corrigido.grade. cbv zeta.
    rewrite (Array_from_voltas _ _ _ _ Hv Hfuel).
    f_equal. apply map_ext. intro k. now rewrite conta_R.
Qed.


End Tempos_R.

Section Tempos_float.

Local Open Scope float_scope.


(** The rounding of the utils integrators does not restore the lockstep
    either: with h = 5.5e-6 and tf = 1e-4 the utils [euler] stores 3.8e-5 as
    the time of its point 7 (the accumulated sum is below 3.85e-5), while
    entry 7 of the grid of [ModeloLogisticoCorrigido] is 3.9e-5 (the product
    7 * h is above). *)
Lemma tempo_arredondado_difere_da_grade :
  option_map (fun l => nth_error (map (fun p => t p) l) 7)
    (Utils.euler 20 1 1 0.5 0x1.a36e2eb1c432dp-14 0x1.711947cfa26a2p-18)
  = Some (Some 0x1.3ec460ed80a18p-15) /\
  option_map (fun g => nth_error g 7)
    (Corrigido.grade 20 0x1.a36e2eb1c432dp-14 0x1.711947cfa26a2p-18)
  = Some (Some 0x1.4727dcbddb984p-15).
Proof. vm_compute. split; reflexivity. Qed.

End Tempos_float.

(** ** The error summary *)

Section Erros_R.

Local Open Scope R_scope.

Lemma fold_Rmax_ge_init (xs : list R) (a : R) : a <= fold_left Rmax xs a.
Proof.
  revert a. induction xs as [|x xs IH]; intro a; simpl; [lra|].
  eapply Rle_trans; [apply (Rmax_l a x) | apply IH].
Qed.

Lemma fold_Rmax_ge_in (xs : list R) (a x : R) :
  In x xs -> x <= fold_left Rmax xs a.
Proof.
  revert a. induction xs as [|x' xs IH]; intros a Hin; simpl in *; [tauto|].
  destruct Hin as [-> | Hin].
  - eapply Rle_trans; [apply (Rmax_r a x) | apply fold_Rmax_ge_init].
  - now apply IH.
Qed.

Lemma fold_Rmax_init_or_in (xs : list R) (a : R) :
  fold_left Rmax xs a = a \/ In (fold_left Rmax xs a) xs.
Proof.
  revert a. induction xs as [|x xs IH]; intro a; simpl; [now left|].
  destruct (IH (Rmax a x)) as [Heq | Hin].
  - rewrite Heq. unfold Rmax. destruct (Rle_dec a x); [right; now left | now left].
  - right. now right.
Qed.

Lemma skipn_nth_error {A : Type} (l : list A) (i : nat) (v : A) :
  nth_error l i = Some v -> skipn i l = v :: skipn (S i) l.
Proof.
  revert i. induction l as [|x l IH]; intros [|i] Hv; simpl in *;
    try discriminate.
  - now inversion Hv.
  - now apply IH.
Qed.

Lemma nth_error_lt_Some {A : Type} (l : list A) (i : nat) :
  (i < length l)%nat -> exists v, nth_error l i = Some v.
Proof.
  intro Hlt. destruct (nth_error l i) eqn:Hv; [eauto|].
  apply nth_error_None in Hv. lia.
Qed.

Lemma In_combine_nth_error {A B : Type} (l1 : list A) (l2 : list B) (a : A) (b : B) :
  In (a, b) (combine l1 l2) <->
  exists i, nth_error l1 i = Some a /\ nth_error l2 i = Some b.
Proof.
  revert l2. induction l1 as [|x l1 IH]; intros [|z l2]; simpl.
  - split; [tauto|]. intros [[|i] [H1 _]]; discriminate.
  - split; [tauto|]. intros [[|i] [H1 _]]; discriminate.
  - split; [tauto|]. intros [[|i] [_ H2]]; discriminate.
  - split.
    + intros [Heq | Hin].
      * inversion Heq; subst. exists 0%nat. now split.
      * apply IH in Hin. destruct Hin as [i Hi]. now exists (S i).
    + intros [[|i] [H1 H2]]; simpl in *.
      * inversion H1; inversion H2; subst. now left.
      * right. apply IH. eauto.
Qed.

(** The inner [forEach] from index [i] on, when the three arrays of the
    solution reach as far as [exata]. *)
Lemma erros_exata_R (sol : Solucao R) (exata : list R) :
  forall (i : nat) (e : Erros R),
    (i + length exata <= length (sol_euler sol))%nat ->
    (i + length exata <= length (sol_eulerApr sol))%nat ->
    (i + length exata <= length (sol_rk4 sol))%nat ->
    erros_exata sol exata i e
    = Some {| erroMaxEuler :=
                fold_left Rmax (diferencas (skipn i (sol_euler sol)) exata)
                  (erroMaxEuler e);
              erroMaxEulerApr :=
                fold_left Rmax (diferencas (skipn i (sol_eulerApr sol)) exata)
                  (erroMaxEulerApr e);
              erroMaxRK4 :=
                fold_left Rmax (diferencas (skipn i (sol_rk4 sol)) exata)
                  (erroMaxRK4 e) |}.
Proof.
  induction exata as [|ex resto IH]; intros i e He Ha Hr.
  - simpl. unfold diferencas.
    rewrite !combine_nil. simpl. now destruct e.
  - simpl length in *. simpl erros_exata.
    destruct (nth_error_lt_Some (sol_euler sol) i) as [ve Hve]; [lia|].
    destruct (nth_error_lt_Some (sol_eulerApr sol) i) as [va Hva]; [lia|].
    destruct (nth_error_lt_Some (sol_rk4 sol) i) as [vr Hvr]; [lia|].
    rewrite Hve, Hva, Hvr.
    rewrite IH by (simpl; lia).
    rewrite (skipn_nth_error _ _ _ Hve), (skipn_nth_error _ _ _ Hva),
      (skipn_nth_error _ _ _ Hvr).
    reflexivity.
Qed.

(** The outer [forEach]: each running maximum is folded over the
    differences of every solution. *)
Lemma erros_todas_R (sols : list (Solucao R)) :
  forall e : Erros R,
    (forall sol, In sol sols ->
       (length (sol_exata sol) <= length (sol_euler sol))%nat /\
       (length (sol_exata sol) <= length (sol_eulerApr sol))%nat /\
       (length (sol_exata sol) <= length (sol_rk4 sol))%nat) ->
    erros_todas sols e
    = Some {| erroMaxEuler :=
                fold_left Rmax
                  (flat_map (fun sol => diferencas (sol_euler sol) (sol_exata sol))
                     sols)
                  (erroMaxEuler e);
              erroMaxEulerApr :=
                fold_left Rmax
                  (flat_map
                     (fun sol => diferencas (sol_eulerApr sol) (sol_exata sol))
                     sols)
                  (erroMaxEulerApr e);
              erroMaxRK4 :=
                fold_left Rmax
                  (flat_map (fun sol => diferencas (sol_rk4 sol) (sol_exata sol))
                     sols)
                  (erroMaxRK4 e) |}.
Proof.
  induction sols as [|sol sols IH]; intros e Hlen.
  - simpl. now destruct e.
  - simpl erros_todas.
    destruct (Hlen sol (or_introl eq_refl)) as [He [Ha Hr]].
    rewrite erros_exata_R by (simpl; assumption).
    rewrite IH by (intros s Hs; apply Hlen; now right).
    simpl. rewrite !fold_left_app. reflexivity.
Qed.

(** A running maximum started at 0 is the maximum of the differences. *)
Lemma maximo_dos_erros_fold (sols : list (Solucao R))
    (metodo : Solucao R -> list R) :
  (forall sol, In sol sols ->
     (0 < length (sol_exata sol))%nat /\
     length (metodo sol) = length (sol_exata sol)) ->
  maximo_dos_erros sols metodo
    (fold_left Rmax
       (flat_map (fun sol => diferencas (metodo sol) (sol_exata sol)) sols) 0).
Proof.
  intro Hlen.
  assert (Hub : forall sol i v ex,
             In sol sols ->
             nth_error (metodo sol) i = Some v ->
             nth_error (sol_exata sol) i = Some ex ->
             Rabs (v - ex)
             <= fold_left Rmax
                  (flat_map (fun sol => diferencas (metodo sol) (sol_exata sol))
                     sols) 0).
  { intros sol i v ex Hin Hv Hex. apply fold_Rmax_ge_in.
    apply in_flat_map. exists sol. split; [exact Hin|].
    unfold diferencas. apply in_map_iff. exists (v, ex). split; [reflexivity|].
    apply In_combine_nth_error. eauto. }
  split; [exact Hub|]. split.
  - intro Hne.
    destruct (fold_Rmax_init_or_in
                (flat_map (fun sol => diferencas (metodo sol) (sol_exata sol))
                   sols) 0) as [Hzero | Hin].
    + destruct sols as [|sol sols']; [congruence|].
      destruct (Hlen sol (or_introl eq_refl)) as [Hpos Heq].
      destruct (nth_error_lt_Some (sol_exata sol) 0 Hpos) as [ex Hex].
      destruct (nth_error_lt_Some (metodo sol) 0) as [v Hv]; [lia|].
      exists sol, 0%nat, v, ex.
      split; [now left|]. split; [exact Hv|]. split; [exact Hex|].
      pose proof (Hub sol 0%nat v ex (or_introl eq_refl) Hv Hex) as Hle.
      pose proof (Rabs_pos (v - ex)). rewrite Hzero in *. lra.
    + apply in_flat_map in Hin. destruct Hin as [sol [Hsol Hd]].
      unfold diferencas in Hd. apply in_map_iff in Hd.
      destruct Hd as [[v ex] [Heq Hc]].
      apply In_combine_nth_error in Hc. destruct Hc as [i [Hv Hex]].
      exists sol, i, v, ex. simpl in Heq. now rewrite Heq.
  - intros ->. reflexivity.
Qed.

Lemma map_idx_total {A B : Type} (f : A -> nat -> option B) (g : A -> nat -> B)
    (xs : list A) :
  (forall x idx, In x xs -> f x idx = Some (g x idx)) ->
  forall idx,
    map_idx f xs idx
    = Some (map (fun p => g (fst p) (snd p)) (combine xs (seq idx (length xs)))).
Proof.
  induction xs as [|x xs IH]; intros Hf idx; simpl; [reflexivity|].
  rewrite Hf by now left.
  rewrite IH by (intros; apply Hf; now right).
  reflexivity.
Qed.

Lemma nth_error_combine_seq {A : Type} (l : list A) :
  forall (s j : nat) (c : A),
    nth_error l j = Some c ->
    nth_error (combine l (seq s (length l))) j = Some (c, (s + j)%nat).
Proof.
  induction l as [|a l IH]; intros s j c Hc.
  - destruct j; discriminate.
  - destruct j as [|j]; simpl in *.
    + inversion Hc. now rewrite Nat.add_0_r.
    + rewrite (IH (S s) j c Hc). f_equal. f_equal. lia.
Qed.

End Erros_R.

Section Dados_R.

Local Open Scope R_scope.

(** Over the reals [dados] returns: the grid, one solution per active
    initial condition, and the three folded maxima. *)
Lemma dados_R (r K tf h : R) (condicoes : list (Condicao R)) (fuel : nat) :
  0 < h -> 0 < tf ->
  (S (Z.to_nat (Zfloor (tf / h))) < fuel)%nat ->
  let ativas := filter (fun c => ativo c) condicoes in
  let sols :=
    map (fun p => solucao_R r K tf h (fst p) (snd p))
        (combine ativas (seq 0 (length ativas))) in
  Corrigido.dados fuel r K tf h condicoes
  = Some
      {| Corrigido.todasSolucoes := sols;
         Corrigido.tempos :=
           map (fun k => toFixed6 (INR k * h))
               (seq 0 (S (Z.to_nat (Zfloor (tf / h)))));
         Corrigido.erros :=
           {| erroMaxEuler :=
                fold_left Rmax
                  (flat_map (fun sol => diferencas (sol_euler sol) (sol_exata sol))
                     sols) 0;
              erroMaxEulerApr :=
                fold_left Rmax
                  (flat_map
                     (fun sol => diferencas (sol_eulerApr sol) (sol_exata sol))
                     sols) 0;
              erroMaxRK4 :=
                fold_left Rmax
                  (flat_map (fun sol => diferencas (sol_rk4 sol) (sol_exata sol))
                     sols) 0 |} |}.
Proof.
  intros Hh Htf Hfuel ativas sols.
  unfold Corrigido.dados.
  change (Corrigido.grade fuel tf h) with (grade_de DeUtils fuel tf h).
  rewrite grade_R by assumption. cbv zeta. simpl guarda_de.
  fold ativas.
  rewrite (map_idx_total _ (solucao_R r K tf h)).
  - fold sols. rewrite erros_todas_R.
    + reflexivity.
    + intros sol Hsol. unfold sols in Hsol. apply in_map_iff in Hsol.
      destruct Hsol as [[c idx] [<- _]]. unfold solucao_R. simpl.
      rewrite !length_map, !length_seq. lia.
  - intros c idx _.
    change (Utils.euler fuel r K (y0 c) tf h)
      with (integrador DeUtils Euler fuel r K (y0 c) tf h).
    change (Utils.eulerAprimorado fuel r K (y0 c) tf h)
      with (integrador DeUtils EulerAprimorado fuel r K (y0 c) tf h).
    change (Utils.rungeKutta4 fuel r K (y0 c) tf h)
      with (integrador DeUtils RungeKutta4 fuel r K (y0 c) tf h).
    rewrite !integrador_R by lia. reflexivity.
Qed.

End Dados_R.

Section Comparador_R.

Local Open Scope R_scope.


End Comparador_R.

(** ** The scenario of the specification: r = 0.05, K = 1, tf = 100, h = 5 *)

Section Cenario.

Local Open Scope R_scope.

Lemma Zfloor_100_5 : Zfloor (100 / 5) = 20%Z.
Proof. apply Zfloor_eq. simpl. lra. Qed.









End Cenario.

(** * Further properties of the code *)

(** ** The Euler recurrence *)

Section Euler_R.

Local Open Scope R_scope.


End Euler_R.

(** ** Invariant regions of the three methods *)

Section Regioes.

Local Open Scope R_scope.

(** Below the carrying capacity, with r·h <= 1, one step of size h along f
    moves up and does not pass K. *)
Lemma logistico_abaixo (t r K h Y : R) :
  0 < K -> 0 <= r -> 0 < h -> r * h <= 1 -> 0 <= Y <= K ->
  0 <= h * Inline.modeloLogistico t Y r K <= K - Y.
Proof.
  intros HK Hr Hh Hrh [HY0 HYK].
  unfold Inline.modeloLogistico. cbn.
  replace (h * (r * Y * (1 - Y / K))) with ((r * h) * (Y / K) * (K - Y))
    by (field; lra).
  assert (Hq0 : 0 <= Y / K) by (apply Rmult_le_pos; [lra | left; now apply Rinv_0_lt_compat]).
  assert (Hq1 : Y / K <= 1).
  { apply (Rmult_le_reg_r K); [exact HK|]. unfold Rdiv.
    rewrite Rmult_assoc, Rinv_l by lra. lra. }
  assert (Ha : 0 <= r * h) by nra.
  assert (Haq0 : 0 <= r * h * (Y / K)) by nra.
  assert (Haq1 : r * h * (Y / K) <= 1) by nra.
  nra.
Qed.

(** Above the carrying capacity, with r·h·Y <= K, one step moves down and
    does not pass K. *)
Lemma logistico_acima (t r K h Y : R) :
  0 < K -> 0 <= r -> 0 < h -> r * h * Y <= K -> K <= Y ->
  0 <= - (h * Inline.modeloLogistico t Y r K) <= Y - K.
Proof.
  intros HK Hr Hh Hrh HYK.
  unfold Inline.modeloLogistico. cbn.
  replace (- (h * (r * Y * (1 - Y / K)))) with ((r * h * Y / K) * (Y - K))
    by (field; lra).
  assert (Hq0 : 0 <= r * h * Y / K).
  { apply Rmult_le_pos; [|left; now apply Rinv_0_lt_compat].
    apply Rmult_le_pos; [apply Rmult_le_pos|]; lra. }
  assert (Hq1 : r * h * Y / K <= 1).
  { apply (Rmult_le_reg_r K); [exact HK|]. unfold Rdiv.
    rewrite Rmult_assoc, Rinv_l by lra. lra. }
  nra.
Qed.

(** One step of any of the three methods from y in [0, K], with r·h <= 1,
    stays in [y, K]. *)
Lemma passo_abaixo (m : Metodo) (t r K h y : R) :
  0 < K -> 0 <= r -> 0 < h -> r * h <= 1 -> 0 <= y <= K ->
  y <= passo_de m r K h t y <= K.
Proof.
  intros HK Hr Hh Hrh Hy.
  assert (Hf : forall s Y, 0 <= Y <= K ->
            0 <= h * Inline.modeloLogistico s Y r K <= K - Y).
  { intros s Y HY. now apply logistico_abaixo. }
  destruct m; unfold passo_de, passo_euler, passo_eulerAprimorado,
    passo_rungeKutta4; cbv zeta; cbn [add sub mul div lit neg Numero_R].
  - pose proof (Hf t y Hy). lra.
  - pose proof (Hf t y Hy) as H1.
    set (k1 := Inline.modeloLogistico t y r K) in *.
    pose proof (Hf (t + h) (y + h * k1)) as H2.
    set (k2 := Inline.modeloLogistico (t + h) (y + h * k1) r K) in *.
    assert (H2' : 0 <= h * k2 <= K - (y + h * k1)) by (apply H2; lra).
    lra.
  - pose proof (Hf t y Hy) as H1.
    set (k1 := Inline.modeloLogistico t y r K) in *.
    pose proof (Hf (t + h / 2) (y + h / 2 * k1)) as H2.
    set (k2 := Inline.modeloLogistico (t + h / 2) (y + h / 2 * k1) r K) in *.
    assert (H2' : 0 <= h * k2 <= K - (y + h / 2 * k1)) by (apply H2; lra).
    pose proof (Hf (t + h / 2) (y + h / 2 * k2)) as H3.
    set (k3 := Inline.modeloLogistico (t + h / 2) (y + h / 2 * k2) r K) in *.
    assert (H3' : 0 <= h * k3 <= K - (y + h / 2 * k2)) by (apply H3; lra).
    pose proof (Hf (t + h) (y + h * k3)) as H4.
    set (k4 := Inline.modeloLogistico (t + h) (y + h * k3) r K) in *.
    assert (H4' : 0 <= h * k4 <= K - (y + h * k3)) by (apply H4; lra).
    lra.
Qed.

(** One step of any of the three methods from y in [K, ymax], with
    r·h·ymax <= K, stays in [K, y]. *)
Lemma passo_acima (m : Metodo) (t r K h ymax y : R) :
  0 < K -> 0 <= r -> 0 < h -> r * h * ymax <= K -> K <= y <= ymax ->
  K <= passo_de m r K h t y <= y.
Proof.
  intros HK Hr Hh Hrh Hy.
  assert (Hf : forall s Y, K <= Y <= ymax ->
            0 <= - (h * Inline.modeloLogistico s Y r K) <= Y - K).
  { intros s Y HY. apply logistico_acima; try lra.
    assert (0 <= r * h) by (apply Rmult_le_pos; lra). nra. }
  destruct m; unfold passo_de, passo_euler, passo_eulerAprimorado,
    passo_rungeKutta4; cbv zeta; cbn [add sub mul div lit neg Numero_R].
  - pose proof (Hf t y Hy). lra.
  - pose proof (Hf t y Hy) as H1.
    set (k1 := Inline.modeloLogistico t y r K) in *.
    pose proof (Hf (t + h) (y + h * k1)) as H2.
    set (k2 := Inline.modeloLogistico (t + h) (y + h * k1) r K) in *.
    assert (H2' : 0 <= - (h * k2) <= (y + h * k1) - K) by (apply H2; lra).
    lra.
  - pose proof (Hf t y Hy) as H1.
    set (k1 := Inline.modeloLogistico t y r K) in *.
    pose proof (Hf (t + h / 2) (y + h / 2 * k1)) as H2.
    set (k2 := Inline.modeloLogistico (t + h / 2) (y + h / 2 * k1) r K) in *.
    assert (H2' : 0 <= - (h * k2) <= (y + h / 2 * k1) - K) by (apply H2; lra).
    pose proof (Hf (t + h / 2) (y + h / 2 * k2)) as H3.
    set (k3 := Inline.modeloLogistico (t + h / 2) (y + h / 2 * k2) r K) in *.
    assert (H3' : 0 <= - (h * k3) <= (y + h / 2 * k2) - K) by (apply H3; lra).
    pose proof (Hf (t + h) (y + h * k3)) as H4.
    set (k4 := Inline.modeloLogistico (t + h) (y + h * k3) r K) in *.
    assert (H4' : 0 <= - (h * k4) <= (y + h * k3) - K) by (apply H4; lra).
    lra.
Qed.

End Regioes.

Section Valores.

Context {num : Type} `{Numero num}.

(** The [y] of the point of index [i], on every carrier. *)
Lemma pontos_valor (guarda : num -> num) (passo : num -> num -> num)
    (h y0 : num) (N i : nat) (p : Ponto num) :
  nth_error (pontos guarda passo h y0 N) i = Some p ->
  y p = valor passo h y0 i /\ (i <= N)%nat.
Proof.
  intro Hp.
  assert (Hi : (i < S N)%nat).
  { rewrite <- (pontos_length guarda passo h y0 N).
    apply nth_error_Some. rewrite Hp. discriminate. }
  split; [|lia].
  destruct i as [|i].
  - rewrite pontos_primeiro in Hp. now inversion Hp.
  - rewrite pontos_seguinte in Hp by lia. now inversion Hp.
Qed.

Lemma pontos_In (guarda : num -> num) (passo : num -> num -> num)
    (h y0 : num) (N : nat) (p : Ponto num) :
  In p (pontos guarda passo h y0 N) ->
  exists i, (i <= N)%nat /\ y p = valor passo h y0 i.
Proof.
  intro Hin. apply In_nth_error in Hin. destruct Hin as [i Hi].
  exists i. apply pontos_valor in Hi. tauto.
Qed.

End Valores.

Section Regioes_R.

Local Open Scope R_scope.

Lemma valor_abaixo (m : Metodo) (r K h y0 : R) (k : nat) :
  0 < K -> 0 <= r -> 0 < h -> r * h <= 1 -> 0 <= y0 <= K ->
  y0 <= valor (passo_de m r K h) h y0 k <= K /\
  valor (passo_de m r K h) h y0 k <= valor (passo_de m r K h) h y0 (S k).
Proof.
  intros HK Hr Hh Hrh Hy0.
  induction k as [|k [IHb IHs]].
  - cbn [valor tempo].
    pose proof (passo_abaixo m (lit 0) r K h y0 HK Hr Hh Hrh Hy0). lra.
  - assert (Hb : y0 <= valor (passo_de m r K h) h y0 (S k) <= K).
    { cbn [valor] in *.
      pose proof (passo_abaixo m (tempo h k) r K h
                    (valor (passo_de m r K h) h y0 k) HK Hr Hh Hrh).
      lra. }
    split; [exact Hb|].
    change (valor (passo_de m r K h) h y0 (S (S k)))
      with (passo_de m r K h (tempo h (S k)) (valor (passo_de m r K h) h y0 (S k))).
    apply passo_abaixo; try assumption. lra.
Qed.

Lemma valor_acima (m : Metodo) (r K h y0 : R) (k : nat) :
  0 < K -> 0 <= r -> 0 < h -> r * h * y0 <= K -> K <= y0 ->
  K <= valor (passo_de m r K h) h y0 k <= y0 /\
  valor (passo_de m r K h) h y0 (S k) <= valor (passo_de m r K h) h y0 k.
Proof.
  intros HK Hr Hh Hrh Hy0.
  induction k as [|k [IHb IHs]].
  - cbn [valor tempo].
    pose proof (passo_acima m (lit 0) r K h y0 y0 HK Hr Hh Hrh). lra.
  - assert (Hb : K <= valor (passo_de m r K h) h y0 (S k) <= y0).
    { cbn [valor] in *.
      pose proof (passo_acima m (tempo h k) r K h y0
                    (valor (passo_de m r K h) h y0 k) HK Hr Hh Hrh).
      lra. }
    split; [exact Hb|].
    change (valor (passo_de m r K h) h y0 (S (S k)))
      with (passo_de m r K h (tempo h (S k)) (valor (passo_de m r K h) h y0 (S k))).
    apply (passo_acima m _ r K h y0); assumption.
Qed.

Lemma valor_crescente (m : Metodo) (r K h y0 : R) (i j : nat) :
  0 < K -> 0 <= r -> 0 < h -> r * h <= 1 -> 0 <= y0 <= K -> (i <= j)%nat ->
  valor (passo_de m r K h) h y0 i <= valor (passo_de m r K h) h y0 j.
Proof.
  intros HK Hr Hh Hrh Hy0 Hij. induction Hij as [|j Hij IH]; [lra|].
  pose proof (valor_abaixo m r K h y0 j HK Hr Hh Hrh Hy0). lra.
Qed.

Lemma valor_decrescente (m : Metodo) (r K h y0 : R) (i j : nat) :
  0 < K -> 0 <= r -> 0 < h -> r * h * y0 <= K -> K <= y0 -> (i <= j)%nat ->
  valor (passo_de m r K h) h y0 j <= valor (passo_de m r K h) h y0 i.
Proof.
  intros HK Hr Hh Hrh Hy0 Hij. induction Hij as [|j Hij IH]; [lra|].
  pose proof (valor_acima m r K h y0 j HK Hr Hh Hrh Hy0). lra.
Qed.



End Regioes_R.

(** ** The analytic solution *)

Section Analitica.

Local Open Scope R_scope.

Lemma exp_decaimento (r t : R) : 0 <= r -> 0 <= t -> 0 < exp (- r * t) <= 1.
Proof.
  intros Hr Ht. split; [apply exp_pos|].
  assert (Hle : - r * t <= 0) by nra.
  destruct Hle as [Hlt | Heq].
  - left. rewrite <- exp_0. now apply exp_increasing.
  - rewrite Heq, exp_0. lra.
Qed.

(** The denominator of the analytic solution lies between y0 and K. *)
Lemma denominador_entre (t r K y0 : R) :
  0 <= r -> 0 <= t ->
  Rmin y0 K <= y0 + (K - y0) * exp (- r * t) <= Rmax y0 K.
Proof.
  intros Hr Ht. pose proof (exp_decaimento r t Hr Ht) as [He0 He1].
  unfold Rmin, Rmax. destruct (Rle_dec y0 K); nra.
Qed.


(** X5: The analytic solution solves the equation of [modeloLogistico]: wherever
    its denominator is not 0 (and K is not 0), its derivative in t is
    f(t, y(t)) = r·y(t)·(1 − y(t)/K). *)
Theorem solucaoExata_resolve_a_equacao (t r K y0 : R) :
  K <> 0 -> y0 + (K - y0) * exp (- r * t) <> 0 ->
  derivable_pt_lim (fun s => Inline.solucaoExata s r K y0) t
    (Inline.modeloLogistico t (Inline.solucaoExata t r K y0) r K).
Proof.
  intros HK HD.
  unfold Inline.solucaoExata, Inline.modeloLogistico. cbn.
  set (g := mult_real_fct (- r) id).
  set (den := (fct_cte y0 + mult_real_fct (K - y0) (comp exp g))%F).
  assert (Hg : derivable_pt_lim g t (- r * 1)).
  { apply derivable_pt_lim_scal, derivable_pt_lim_id. }
  assert (He : derivable_pt_lim (comp exp g) t (exp (g t) * (- r * 1))).
  { apply derivable_pt_lim_comp; [exact Hg | apply derivable_pt_lim_exp]. }
  assert (Hden : derivable_pt_lim den t (0 + (K - y0) * (exp (g t) * (- r * 1)))).
  { apply derivable_pt_lim_plus; [apply derivable_pt_lim_const|].
    apply derivable_pt_lim_scal. exact He. }
  assert (Hgt : g t = - r * t) by reflexivity.
  assert (Hdent : den t = y0 + (K - y0) * exp (- r * t)) by reflexivity.
  pose proof (derivable_pt_lim_div (fct_cte (K * y0)) den t 0 _
                (derivable_pt_lim_const (K * y0) t) Hden) as Hq.
  rewrite Hdent in Hq. specialize (Hq HD).
  apply (derivable_pt_lim_ext (fct_cte (K * y0) / den)%F); [reflexivity|].
  replace (r * (K * y0 / (y0 + (K - y0) * exp (- r * t)))
           * (1 - K * y0 / (y0 + (K - y0) * exp (- r * t)) / K))
    with ((0 * (y0 + (K - y0) * exp (- r * t))
           - (0 + (K - y0) * (exp (g t) * (- r * 1))) * fct_cte (K * y0) t)
          / Rsqr (y0 + (K - y0) * exp (- r * t))).
  - exact Hq.
  - rewrite Hgt. unfold fct_cte, Rsqr. field. split; assumption.
Qed.

End Analitica.

(** ** The equilibrium y = 0 *)

Section Equilibrio_zero.

Local Open Scope R_scope.

Lemma passo_em_zero (m : Metodo) (r K h t : R) :
  K <> 0 -> passo_de m r K h t 0 = 0.
Proof.
  intro HK.
  destruct m; unfold passo_de, passo_euler, passo_eulerAprimorado,
    passo_rungeKutta4, Inline.modeloLogistico; cbn; field; exact HK.
Qed.

Lemma valor_em_zero (m : Metodo) (r K h : R) (k : nat) :
  K <> 0 -> valor (passo_de m r K h) h 0 k = 0.
Proof.
  intro HK. induction k as [|k IH]; simpl; [reflexivity|].
  rewrite IH. now apply passo_em_zero.
Qed.


End Equilibrio_zero.

(** ** Trajectories of different lengths, and restarts *)

Section Composicao.

Context {num : Type} `{Numero num}.

(** The update of [y] does not read the time. *)
Lemma passo_de_autonomo (m : Metodo) (r K h t t' y : num) :
  passo_de m r K h t y = passo_de m r K h t' y.
Proof. destruct m; reflexivity. Qed.

(** [i + j] steps from y0 are [j] steps from the value after [i] steps. *)
Lemma valor_soma (m : Metodo) (r K h y0 : num) (i j : nat) :
  valor (passo_de m r K h) h y0 (i + j)
  = valor (passo_de m r K h) h (valor (passo_de m r K h) h y0 i) j.
Proof.
  induction j as [|j IH].
  - now rewrite Nat.add_0_r.
  - rewrite Nat.add_succ_r. simpl. rewrite IH.
    apply passo_de_autonomo.
Qed.

Lemma firstn_seq_min (n s len : nat) :
  firstn n (seq s len) = seq s (Nat.min n len).
Proof.
  revert s len. induction n as [|n IH]; intros s [|len]; simpl; try reflexivity.
  now rewrite IH.
Qed.

(** The points after [N] runs are the first [N + 1] of those after more. *)
Lemma pontos_prefixo (guarda : num -> num) (passo : num -> num -> num)
    (h y0 : num) (N N' : nat) :
  (N <= N')%nat ->
  pontos guarda passo h y0 N = firstn (S N) (pontos guarda passo h y0 N').
Proof.
  intro Hle. unfold pontos. simpl. f_equal.
  rewrite firstn_map, firstn_seq_min. now rewrite Nat.min_l.
Qed.

(** The two grid loops, side by side. *)
Lemma laco_grade_arredonda (h n : num) (fuel : nat) :
  forall (i : num) (acc : list num),
    laco fuel n (fun i acc => acc ++ [toFixed6 (mul i h)]) i (map toFixed6 acc)
    = option_map (map toFixed6)
        (laco fuel n (fun i acc => acc ++ [mul i h]) i acc).
Proof.
  induction fuel as [|fuel IH]; intros i acc; simpl; [reflexivity|].
  destruct (lt i n); [|reflexivity].
  rewrite <- IH. now rewrite map_app.
Qed.

(** X10: The grid of [ModeloLogisticoCorrigido] is the grid of
    [ModeloLogisticoMultiplo] rounded, entry by entry, on every carrier and
    for every fuel. *)
Theorem grade_corrigido_arredonda_multiplo (fuel : nat) (tf h : num) :
  Corrigido.grade fuel tf h
  = option_map (map toFixed6) (Multiplo.grade fuel tf h).
Proof.
  unfold Corrigido.grade, Multiplo.grade, Array_from. cbv zeta.
  apply (laco_grade_arredonda h _ fuel (lit 0) []).
Qed.

End Composicao.

Section Composicao_R.

Local Open Scope R_scope.



End Composicao_R.

(** ** The error summary at the equilibrium *)

Section Erros_no_equilibrio.

Local Open Scope R_scope.

Lemma fold_Rmax_zeros (xs : list R) :
  (forall x, In x xs -> x = 0) -> fold_left Rmax xs 0 = 0.
Proof.
  intro Hz. destruct (fold_Rmax_init_or_in xs 0) as [Heq | Hin];
    [exact Heq | now apply Hz].
Qed.

Lemma diferencas_constantes (numerico exata : list R) (a : R) :
  (forall v, In v numerico -> v = a) ->
  (forall ex, In ex exata -> ex = a) ->
  forall x, In x (diferencas numerico exata) -> x = 0.
Proof.
  intros Hn He x Hx. unfold diferencas in Hx. apply in_map_iff in Hx.
  destruct Hx as [[v ex] [<- Hin]]. simpl.
  rewrite (Hn v (in_combine_l _ _ _ _ Hin)), (He ex (in_combine_r _ _ _ _ Hin)).
  replace (a - a) with 0 by ring. apply Rabs_R0.
Qed.


End Erros_no_equilibrio.

(** ** The [dados] of [ModeloLogisticoMultiplo] *)

Section Dados_Multiplo_R.

Local Open Scope R_scope.

Lemma solucaoExata_em_zero (r K y0 : R) :
  K <> 0 -> Inline.solucaoExata 0 r K y0 = y0.
Proof.
  intro HK. unfold Inline.solucaoExata. cbn.
  replace (- r * 0) with 0 by ring. rewrite exp_0. field.
  intro Hzero. apply HK. lra.
Qed.

Lemma Multiplo_dados_R (r K tf h : R) (condicoes : list (Condicao R))
    (fuel : nat) :
  0 < h -> 0 < tf ->
  (S (Z.to_nat (Zfloor (tf / h))) < fuel)%nat ->
  Multiplo.dados fuel r K tf h condicoes
  = Some
      {| Multiplo.todasSolucoes :=
           map (fun p => solucao_Multiplo_R r K tf h (fst p) (snd p))
               (combine (filter (fun c => ativo c) condicoes)
                  (seq 0 (length (filter (fun c => ativo c) condicoes))));
         Multiplo.tempos :=
           map (fun k => INR k * h) (seq 0 (S (Z.to_nat (Zfloor (tf / h))))) |}.
Proof.
  intros Hh Htf Hfuel.
  unfold Multiplo.dados.
  change (Multiplo.grade fuel tf h) with (grade_de EmLinha fuel tf h).
  rewrite grade_R by assumption. cbv zeta. simpl guarda_de.
  rewrite (map_idx_total _ (solucao_Multiplo_R r K tf h)).
  - reflexivity.
  - intros c idx _.
    change (Inline.euler fuel r K (y0 c) tf h)
      with (integrador EmLinha Euler fuel r K (y0 c) tf h).
    change (Inline.eulerAprimorado fuel r K (y0 c) tf h)
      with (integrador EmLinha EulerAprimorado fuel r K (y0 c) tf h).
    change (Inline.rungeKutta4 fuel r K (y0 c) tf h)
      with (integrador EmLinha RungeKutta4 fuel r K (y0 c) tf h).
    rewrite !integrador_R by lia. reflexivity.
Qed.


End Dados_Multiplo_R.

(** ** Updating the initial conditions *)

Section Atualizar.

Context {num : Type}.

Lemma le_estado_de (cs : list (Condicao num)) (i : nat) :
  le (estado_de cs) i = option_map objeto_de (nth_error cs i).
Proof.
  unfold le, estado_de. rewrite nth_error_map.
  destruct (nth_error cs i); reflexivity.
Qed.

Lemma escreve_dentro (a : @Estado num) (i : nat) (o : Objeto num) :
  (i < length a)%nat ->
  escreve a i o = firstn i a ++ Some o :: skipn (S i) a.
Proof.
  revert i. induction a as [|x a IH]; intros [|i] Hi; simpl in *; try lia.
  - reflexivity.
  - rewrite IH by lia. reflexivity.
Qed.

Lemma escreve_vazio (i : nat) (o : Objeto num) :
  escreve [] i o = repeat None i ++ [Some o].
Proof. induction i as [|i IH]; simpl; [reflexivity | now rewrite IH]. Qed.

Lemma escreve_fora (a : @Estado num) (i : nat) (o : Objeto num) :
  (length a <= i)%nat ->
  escreve a i o = a ++ repeat None (i - length a) ++ [Some o].
Proof.
  revert i. induction a as [|x a IH]; intros i Hi.
  - simpl. rewrite Nat.sub_0_r. apply escreve_vazio.
  - destruct i as [|i]; simpl in *; [lia|].
    rewrite IH by lia. reflexivity.
Qed.

Lemma length_escreve (a : @Estado num) (i : nat) (o : Objeto num) :
  length (escreve a i o) = Nat.max (length a) (S i).
Proof.
  revert i. induction a as [|x a IH]; intros i.
  - rewrite escreve_vazio, length_app, repeat_length. simpl. lia.
  - destruct i as [|i]; simpl; [lia|]. rewrite IH. lia.
Qed.

Lemma le_escreve_eq (a : @Estado num) (i : nat) (o : Objeto num) :
  le (escreve a i o) i = Some o.
Proof.
  unfold le. revert i. induction a as [|x a IH]; intros i.
  - induction i as [|i IHi]; [reflexivity | exact IHi].
  - destruct i as [|i]; [reflexivity | apply IH].
Qed.

Lemma le_vazio (j : nat) : le ([] : @Estado num) j = None.
Proof. unfold le. now destruct j. Qed.

Lemma le_escreve_neq (a : @Estado num) (i j : nat) (o : Objeto num) :
  i <> j -> le (escreve a i o) j = le a j.
Proof.
  revert i j. induction a as [|x a IH]; intros i j Hij.
  - rewrite le_vazio. revert j Hij.
    induction i as [|i IHi]; intros [|j] Hij; try congruence; try reflexivity.
    + unfold le. simpl. now destruct j.
    + apply (IHi j). congruence.
  - destruct i as [|i], j as [|j]; try congruence; try reflexivity.
    apply (IH i j). congruence.
Qed.

Lemma escreve_comuta (a : @Estado num) (i j : nat) (o1 o2 : Objeto num) :
  i <> j ->
  escreve (escreve a i o1) j o2 = escreve (escreve a j o2) i o1.
Proof.
  revert a j. induction i as [|i IH]; intros a [|j] Hij; try congruence.
  - destruct a; reflexivity.
  - destruct a; reflexivity.
  - destruct a as [|x a]; simpl; f_equal; apply IH; congruence.
Qed.

Lemma escreve_duas_vezes (a : @Estado num) (i : nat) (o1 o2 : Objeto num) :
  escreve (escreve a i o1) i o2 = escreve a i o2.
Proof.
  revert a. induction i as [|i IH]; intros [|x a]; simpl; try reflexivity;
    f_equal; apply IH.
Qed.

Lemma atualizarCondicao_estado_de (cs : list (Condicao num)) (index : nat)
    (c : Condicao num) (campo : Campo num) :
  nth_error cs index = Some c ->
  atualizarCondicao (estado_de cs) index campo
  = estado_de (firstn index cs ++ com_campo c campo :: skipn (S index) cs).
Proof.
  intro Hc.
  assert (Hi : (index < length cs)%nat).
  { apply nth_error_Some. rewrite Hc. discriminate. }
  unfold atualizarCondicao. cbv zeta.
  rewrite le_estado_de, Hc. simpl option_map.
  rewrite escreve_dentro by (unfold estado_de; rewrite length_map; lia).
  unfold estado_de. rewrite map_app, firstn_map. simpl map.
  rewrite skipn_map. f_equal. f_equal. f_equal.
  destruct campo; reflexivity.
Qed.

Lemma troca_decompoe {A : Type} (l : list A) (i : nat) (x : A) :
  nth_error l i = Some x -> l = firstn i l ++ x :: skipn (S i) l.
Proof.
  intro Hx. rewrite <- (skipn_nth_error l i x Hx). symmetry.
  apply firstn_skipn.
Qed.

(** X13: Reading back after [atualizarCondicao], in any state (holes and missing
    properties included): the object at [index] is the old one with the
    property replaced, every other index reads as before, and the array has
    the old length unless [index] was past its end. *)
Theorem atualizarCondicao_leitura (condicoes : @Estado num) (index : nat)
    (campo : Campo num) :
  le (atualizarCondicao condicoes index campo) index
  = Some (espalha (le condicoes index) campo) /\
  (forall j, j <> index ->
     le (atualizarCondicao condicoes index campo) j = le condicoes j) /\
  length (atualizarCondicao condicoes index campo)
  = Nat.max (length condicoes) (S index).
Proof.
  unfold atualizarCondicao. cbv zeta. split; [|split].
  - apply le_escreve_eq.
  - intros j Hj. apply le_escreve_neq. congruence.
  - apply length_escreve.
Qed.

(** X14: On an array of initial conditions, at an index inside it,
    [atualizarCondicao] gives an array of initial conditions of the same
    length: the one at [index] has the property replaced and keeps the
    other, and the others are unchanged. *)
Theorem atualizarCondicao_dentro (cs : list (Condicao num)) (index : nat)
    (c : Condicao num) (campo : Campo num) :
  nth_error cs index = Some c ->
  exists cs' : list (Condicao num),
    atualizarCondicao (estado_de cs) index campo = estado_de cs' /\
    length cs' = length cs /\
    nth_error cs' index = Some (com_campo c campo) /\
    forall j, j <> index -> nth_error cs' j = nth_error cs j.
Proof.
  intro Hc.
  assert (Hi : (index < length cs)%nat).
  { apply nth_error_Some. rewrite Hc. discriminate. }
  exists (firstn index cs ++ com_campo c campo :: skipn (S index) cs).
  assert (Hlen : length (firstn index cs) = index).
  { rewrite length_firstn. lia. }
  split; [|split; [|split]].
  - now apply atualizarCondicao_estado_de.
  - rewrite length_app, Hlen. cbn [length]. rewrite length_skipn. lia.
  - rewrite nth_error_app2 by lia. rewrite Hlen, Nat.sub_diag. reflexivity.
  - intros j Hj.
    destruct (Nat.lt_ge_cases j index) as [Hlt | Hge].
    + rewrite nth_error_app1 by lia. rewrite nth_error_firstn.
      destruct (Nat.ltb_spec j index); [reflexivity | lia].
    + rewrite nth_error_app2 by lia. rewrite Hlen.
      destruct (j - index)%nat as [|k] eqn:Hk; [lia|].
      cbn [nth_error]. rewrite nth_error_skipn. f_equal. lia.
Qed.

(** X15: Past the end of the array, [atualizarCondicao] makes it grow to
    [index + 1]: holes up to [index], and at [index] an object with the
    written property only. *)
Theorem atualizarCondicao_fora (condicoes : @Estado num) (index : nat)
    (campo : Campo num) :
  (length condicoes <= index)%nat ->
  atualizarCondicao condicoes index campo
  = condicoes ++ repeat None (index - length condicoes)
      ++ [Some (espalha None campo)].
Proof.
  intro Hfora. unfold atualizarCondicao. cbv zeta.
  assert (Hle : le condicoes index = None).
  { unfold le. destruct (nth_error condicoes index) eqn:Hn; [|reflexivity].
    assert (nth_error condicoes index <> None) by congruence.
    apply nth_error_Some in H. lia. }
  rewrite Hle. now apply escreve_fora.
Qed.

(** X16: Updates at two different indices can be made in either order. *)
Theorem atualizarCondicao_comuta (condicoes : @Estado num) (i j : nat)
    (campo1 campo2 : Campo num) :
  i <> j ->
  atualizarCondicao (atualizarCondicao condicoes i campo1) j campo2
  = atualizarCondicao (atualizarCondicao condicoes j campo2) i campo1.
Proof.
  intro Hij. unfold atualizarCondicao. cbv zeta.
  rewrite (le_escreve_neq condicoes i j) by exact Hij.
  rewrite (le_escreve_neq condicoes j i) by congruence.
  now apply escreve_comuta.
Qed.

(** X17: Ticking or unticking the checkbox of row [idx] moves the number of
    active initial conditions by the difference between the new and the old
    value of [ativo], and changes no y0. *)
Theorem aoMudarAtivo_contagem (cs : list (Condicao num)) (idx : nat)
    (c : Condicao num) (checked : bool) :
  nth_error cs idx = Some c ->
  exists cs' : list (Condicao num),
    aoMudarAtivo (estado_de cs) idx checked = estado_de cs' /\
    (condicoesAtivasCount cs' + Nat.b2n (ativo c)
     = condicoesAtivasCount cs + Nat.b2n checked)%nat /\
    map (fun c => y0 c) cs' = map (fun c => y0 c) cs.
Proof.
  intro Hc.
  exists (firstn idx cs ++ com_campo c (Campo_ativo checked)
            :: skipn (S idx) cs).
  split; [|split].
  - unfold aoMudarAtivo. now apply atualizarCondicao_estado_de.
  - unfold condicoesAtivasCount.
    rewrite (troca_decompoe cs idx c Hc) at 3.
    rewrite !filter_app, !length_app. simpl.
    destruct checked, (ativo c); simpl; lia.
  - rewrite (troca_decompoe cs idx c Hc) at 3.
    rewrite !map_app. reflexivity.
Qed.

End Atualizar.

Section Formulario_float.

(** X18: In binary64, whatever number [parseFloat] returns (NaN for an empty or
    unreadable field included), the y0 stored by the number field of row
    [idx] is neither NaN nor a zero: it is that number when it is neither,
    and 0.1 otherwise.  [ativo] and the other rows are unchanged. *)
Theorem aoMudarY0_nunca_zero_nem_NaN (cs : list (Condicao float)) (idx : nat)
    (c : Condicao float) (x : float) :
  nth_error cs idx = Some c ->
  exists (cs' : list (Condicao float)) (c' : Condicao float),
    aoMudarY0 (estado_de cs) idx x = estado_de cs' /\
    nth_error cs' idx = Some c' /\
    ativo c' = ativo c /\
    verdadeiro (y0 c') = true /\
    y0 c' = (if verdadeiro x then x else 0x1.999999999999ap-4%float) /\
    (forall j, j <> idx -> nth_error cs' j = nth_error cs j) /\
    condicoesAtivasCount cs' = condicoesAtivasCount cs.
Proof.
  intro Hc.
  set (v := if verdadeiro x then x else um_decimo).
  assert (Hi : (idx < length cs)%nat).
  { apply nth_error_Some. rewrite Hc. discriminate. }
  assert (Hlen : length (firstn idx cs) = idx).
  { rewrite length_firstn. lia. }
  exists (firstn idx cs ++ com_campo c (Campo_y0 v) :: skipn (S idx) cs),
         (com_campo c (Campo_y0 v)).
  split; [|split; [|split; [|split; [|split; [|split]]]]].
  - unfold aoMudarY0. now apply atualizarCondicao_estado_de.
  - rewrite nth_error_app2 by lia. rewrite Hlen, Nat.sub_diag. reflexivity.
  - reflexivity.
  - simpl. unfold v. destruct (verdadeiro x) eqn:Hx; [exact Hx|].
    vm_compute. reflexivity.
  - reflexivity.
  - intros j Hj.
    destruct (Nat.lt_ge_cases j idx) as [Hlt | Hge].
    + rewrite nth_error_app1 by lia. rewrite nth_error_firstn.
      destruct (Nat.ltb_spec j idx); [reflexivity | lia].
    + rewrite nth_error_app2 by lia. rewrite Hlen.
      destruct (j - idx)%nat as [|k] eqn:Hk; [lia|].
      cbn [nth_error]. rewrite nth_error_skipn. f_equal. lia.
  - unfold condicoesAtivasCount.
    rewrite (troca_decompoe cs idx c Hc) at 3.
    rewrite !filter_app, !length_app. simpl.
    destruct (ativo c); reflexivity.
Qed.

End Formulario_float.

(** ** The records of the chart *)

Section Registos.

Context {num : Type}.

Lemma propriedade_atribui_eq (k : string) (v : Valor num) (ponto : @Registo num) :
  propriedade k (atribui k v ponto) = Some v.
Proof.
  induction ponto as [|[k' v'] resto IH]; simpl.
  - now rewrite String.eqb_refl.
  - destruct (String.eqb k' k) eqn:Hk; simpl.
    + now rewrite String.eqb_refl.
    + now rewrite Hk.
Qed.

Lemma propriedade_atribui_neq (k k' : string) (v : Valor num)
    (ponto : @Registo num) :
  k <> k' -> propriedade k' (atribui k v ponto) = propriedade k' ponto.
Proof.
  intro Hk. induction ponto as [|[k0 v0] resto IH]; simpl.
  - apply String.eqb_neq in Hk. now rewrite Hk.
  - destruct (String.eqb k0 k) eqn:Hk0; simpl.
    + apply String.eqb_eq in Hk0. subst k0.
      apply String.eqb_neq in Hk. now rewrite Hk.
    + destruct (String.eqb k0 k'); [reflexivity | exact IH].
Qed.

(** Two keys are equal only for the same series and the same index. *)
Lemma chave_inj (s s' : Serie) (j j' : nat) :
  chave (prefixo s) j = chave (prefixo s') j' -> s = s' /\ j = j'.
Proof.
  intro Heq.
  assert (Hnum : forall a b : nat,
            DecimalString.NilEmpty.string_of_uint (Nat.to_uint a)
            = DecimalString.NilEmpty.string_of_uint (Nat.to_uint b) -> a = b).
  { intros a b Hab.
    apply (f_equal DecimalString.NilEmpty.uint_of_string) in Hab.
    rewrite !DecimalString.NilEmpty.usu in Hab. inversion Hab as [Hab'].
    now apply DecimalNat.Unsigned.to_uint_inj. }
  unfold chave in Heq.
  destruct s, s'; simpl in Heq; try discriminate;
    (split; [reflexivity|]); apply Hnum; now inversion Heq.
Qed.

Lemma chave_nao_t (s : Serie) (j : nat) : "t"%string <> chave (prefixo s) j.
Proof. unfold chave. destruct s; simpl; discriminate. Qed.

(** The four assignments of one solution, read back. *)
Lemma preenche_passo (sol : Solucao num) (j i : nat) (ponto : @Registo num)
    (k : string) :
  propriedade k
    (atribui (chave "rk4_" j) (elemento (sol_rk4 sol) i)
       (atribui (chave "eulerApr_" j) (elemento (sol_eulerApr sol) i)
          (atribui (chave "euler_" j) (elemento (sol_euler sol) i)
             (atribui (chave "exata_" j) (elemento (sol_exata sol) i) ponto))))
  = match
      find (fun s => String.eqb (chave (prefixo s) j) k)
        [S_exata; S_euler; S_eulerApr; S_rk4]
    with
    | Some s => Some (elemento (valores s sol) i)
    | None => propriedade k ponto
    end.
Proof.
  assert (Hd : forall s s', s <> s' ->
            chave (prefixo s) j <> chave (prefixo s') j).
  { intros s s' Hs Heq. apply chave_inj in Heq. tauto. }
  cbn [find].
  destruct (String.eqb (chave (prefixo S_exata) j) k) eqn:H1.
  { apply String.eqb_eq in H1. subst k. cbn [valores prefixo].
    rewrite !propriedade_atribui_neq
      by (first [ apply (Hd S_rk4 S_exata) | apply (Hd S_eulerApr S_exata)
                | apply (Hd S_euler S_exata) ]; discriminate).
    apply propriedade_atribui_eq. }
  destruct (String.eqb (chave (prefixo S_euler) j) k) eqn:H2.
  { apply String.eqb_eq in H2. subst k. cbn [valores prefixo].
    rewrite !propriedade_atribui_neq
      by (first [ apply (Hd S_rk4 S_euler) | apply (Hd S_eulerApr S_euler) ];
          discriminate).
    apply propriedade_atribui_eq. }
  destruct (String.eqb (chave (prefixo S_eulerApr) j) k) eqn:H3.
  { apply String.eqb_eq in H3. subst k. cbn [valores prefixo].
    rewrite propriedade_atribui_neq by (apply (Hd S_rk4 S_eulerApr); discriminate).
    apply propriedade_atribui_eq. }
  destruct (String.eqb (chave (prefixo S_rk4) j) k) eqn:H4.
  { apply String.eqb_eq in H4. subst k. cbn [valores prefixo].
    apply propriedade_atribui_eq. }
  apply String.eqb_neq in H1, H2, H3, H4.
  rewrite !propriedade_atribui_neq by assumption. reflexivity.
Qed.

(** A key that belongs to none of the solutions from position [j] on is
    left as it was. *)
Lemma preenche_outra (sols : list (Solucao num)) (i : nat) (k : string) :
  forall (j : nat) (ponto : @Registo num),
    (forall s n, (n < length sols)%nat -> chave (prefixo s) (j + n) <> k) ->
    propriedade k (preenche sols j i ponto) = propriedade k ponto.
Proof.
  induction sols as [|sol resto IH]; intros j ponto Hk; [reflexivity|].
  simpl preenche. rewrite IH.
  - rewrite preenche_passo.
    assert (Hnone : find (fun s => String.eqb (chave (prefixo s) j) k)
                      [S_exata; S_euler; S_eulerApr; S_rk4] = None).
    { cbn [find].
      assert (Hj : forall s, String.eqb (chave (prefixo s) j) k = false).
      { intro s. apply String.eqb_neq. rewrite <- (Nat.add_0_r j).
        apply Hk. simpl. lia. }
      now rewrite !Hj. }
    now rewrite Hnone.
  - intros s n Hn. replace (S j + n)%nat with (j + S n)%nat by lia.
    apply Hk. simpl. lia.
Qed.

(** The key of series [s] and position [j + n] holds the value of that
    series of the solution at position [n]. *)
Lemma preenche_chave (sols : list (Solucao num)) (i : nat) (s : Serie) :
  forall (j n : nat) (sol : Solucao num) (ponto : @Registo num),
    nth_error sols n = Some sol ->
    propriedade (chave (prefixo s) (j + n)) (preenche sols j i ponto)
    = Some (elemento (valores s sol) i).
Proof.
  induction sols as [|sol0 resto IH]; intros j n sol ponto Hn.
  - destruct n; discriminate.
  - destruct n as [|n]; simpl in Hn.
    + inversion Hn; subst sol0. rewrite Nat.add_0_r. simpl preenche.
      rewrite preenche_outra.
      * rewrite preenche_passo.
        assert (Hs : find (fun s' => String.eqb (chave (prefixo s') j)
                                       (chave (prefixo s) j))
                       [S_exata; S_euler; S_eulerApr; S_rk4] = Some s).
        { assert (Hd : forall s', s' <> s ->
                    String.eqb (chave (prefixo s') j) (chave (prefixo s) j)
                    = false).
          { intros s' Hs'. apply String.eqb_neq. intro Heq.
            apply chave_inj in Heq. tauto. }
          destruct s; cbn [find];
            rewrite ?Hd by discriminate; now rewrite String.eqb_refl. }
        now rewrite Hs.
      * intros s' n' _ Heq. apply chave_inj in Heq. lia.
    + simpl preenche. replace (j + S n)%nat with (S j + n)%nat by lia.
      now apply IH.
Qed.

Lemma registos_length (t_de : num -> Valor num) (tempos : list num)
    (sols : list (Solucao num)) :
  forall i0, length (registos t_de tempos sols i0) = length tempos.
Proof.
  induction tempos as [|t resto IH]; intro i0; simpl; [reflexivity|].
  now rewrite IH.
Qed.

Lemma registos_nth (t_de : num -> Valor num) (tempos : list num)
    (sols : list (Solucao num)) :
  forall (i0 i : nat) (t : num),
    nth_error tempos i = Some t ->
    nth_error (registos t_de tempos sols i0) i
    = Some (preenche sols 0 (i0 + i) [("t"%string, t_de t)]).
Proof.
  induction tempos as [|t0 resto IH]; intros i0 i t Ht.
  - destruct i; discriminate.
  - destruct i as [|i]; simpl in *.
    + inversion Ht. now rewrite Nat.add_0_r.
    + rewrite (IH (S i0) i t Ht). f_equal. f_equal. lia.
Qed.

(** X19: [dadosGrafico] has one record per time of the grid.  In the record of
    time index [i]: the key "t" holds the time; for every solution, at
    position [j], the keys [exata_j], [euler_j], [eulerApr_j] and [rk4_j]
    hold the values of index [i] of its four series ([undefined] where a
    series is shorter); and no key of a position past the last solution
    exists. *)
Theorem registos_propriedades (t_de : num -> Valor num) (tempos : list num)
    (todasSolucoes : list (Solucao num)) :
  length (registos t_de tempos todasSolucoes 0) = length tempos /\
  forall i t,
    nth_error tempos i = Some t ->
    exists ponto : @Registo num,
      nth_error (registos t_de tempos todasSolucoes 0) i = Some ponto /\
      propriedade "t" ponto = Some (t_de t) /\
      (forall s j sol,
         nth_error todasSolucoes j = Some sol ->
         propriedade (chave (prefixo s) j) ponto
         = Some (elemento (valores s sol) i)) /\
      (forall s j,
         (length todasSolucoes <= j)%nat ->
         propriedade (chave (prefixo s) j) ponto = None).
Proof.
  split; [apply registos_length|].
  intros i t Ht.
  exists (preenche todasSolucoes 0 i [("t"%string, t_de t)]).
  split; [|split; [|split]].
  - now rewrite (registos_nth t_de tempos todasSolucoes 0 i t Ht).
  - rewrite preenche_outra.
    + simpl. reflexivity.
    + intros s n _ Heq. symmetry in Heq. now apply chave_nao_t in Heq.
  - intros s j sol Hsol.
    apply (preenche_chave todasSolucoes i s 0 j sol _ Hsol).
  - intros s j Hj. rewrite preenche_outra.
    + cbn [propriedade]. pose proof (chave_nao_t s j) as Hnt.
      apply String.eqb_neq in Hnt. now rewrite Hnt.
    + intros s' n Hn Heq. apply chave_inj in Heq. simpl in Heq. lia.
Qed.

End Registos.

Section Grafico_R.

Local Open Scope R_scope.

Lemma elemento_dentro (xs : list R) (i : nat) :
  (i < length xs)%nat -> exists x, elemento xs i = V_numero x.
Proof.
  intro Hi. unfold elemento.
  destruct (nth_error_lt_Some xs i Hi) as [x ->]. now exists x.
Qed.

Lemma valores_solucao_R_length (s : Serie) (r K tf h : R) (c : Condicao R)
    (idx : nat) :
  length (valores s (solucao_R r K tf h c idx))
  = S (Z.to_nat (Zfloor (tf / h))).
Proof.
  destruct s; unfold solucao_R; cbn [valores sol_exata sol_euler sol_eulerApr sol_rk4];
    rewrite !length_map; rewrite ?length_seq, ?pontos_length; reflexivity.
Qed.


End Grafico_R.

Section Fluxo.

Local Open Scope R_scope.


End Fluxo.

(** ** The further properties at the scenario *)

Section Cenario_R.

Local Open Scope R_scope.





Lemma denominador_cenario (t : R) :
  1 / 2 + (1 - 1 / 2) * exp (- (1 / 20) * t) <> 0.
Proof. pose proof (exp_pos (- (1 / 20) * t)). lra. Qed.

(** The differential equation at the scenario, at t = 100. *)
Lemma solucaoExata_equacao_witness :
  derivable_pt_lim (fun s => Inline.solucaoExata s (1 / 20) 1 (1 / 2)) 100
    (Inline.modeloLogistico 100
       (Inline.solucaoExata 100 (1 / 20) 1 (1 / 2)) (1 / 20) 1).
Proof.
  apply solucaoExata_resolve_a_equacao; [lra | apply denominador_cenario].
Defined.



Lemma Zfloor_50_5 : Zfloor (50 / 5) = 10%Z.
Proof. apply Zfloor_eq. simpl. lra. Qed.






End Cenario_R.

Section Cenario_float.

Local Open Scope float_scope.

(** Unticking the second of three rows keeps the first and the third. *)
Lemma atualizarCondicao_dentro_witness :
  exists cs' : list (Condicao float),
    atualizarCondicao
      (estado_de [ {| y0 := 0.5; ativo := true |};
                   {| y0 := 1.5; ativo := true |};
                   {| y0 := 0.25; ativo := true |} ])
      1 (Campo_ativo false)
    = estado_de cs' /\
    length cs' = 3%nat /\
    nth_error cs' 1 = Some {| y0 := 1.5; ativo := false |}.
Proof.
  destruct (atualizarCondicao_dentro
              [ {| y0 := 0.5; ativo := true |};
                {| y0 := 1.5; ativo := true |};
                {| y0 := 0.25; ativo := true |} ]
              1 {| y0 := 1.5; ativo := true |} (Campo_ativo false))
    as [cs' [Heq [Hlen [Hn _]]]]; [reflexivity |].
  exists cs'. split; [exact Heq |]. split; [exact Hlen | exact Hn].
Defined.

(** Writing y0 at index 3 of a one-element array. *)
Lemma atualizarCondicao_fora_witness :
  atualizarCondicao (estado_de [ {| y0 := 0.5; ativo := true |} ]) 3
    (Campo_y0 1.5)
  = [ Some {| o_y0 := Some 0.5; o_ativo := Some true |}; None; None;
      Some {| o_y0 := Some 1.5; o_ativo := None |} ].
Proof.
  apply (atualizarCondicao_fora
           (estado_de [ {| y0 := 0.5; ativo := true |} ]) 3 (Campo_y0 1.5)).
  simpl. lia.
Defined.

(** Two updates at indices 0 and 1, in both orders. *)
Lemma atualizarCondicao_comuta_witness :
  atualizarCondicao
    (atualizarCondicao
       (estado_de [ {| y0 := 0.5; ativo := true |};
                    {| y0 := 1.5; ativo := true |} ])
       0 (Campo_y0 0.25))
    1 (Campo_ativo false)
  = atualizarCondicao
      (atualizarCondicao
         (estado_de [ {| y0 := 0.5; ativo := true |};
                      {| y0 := 1.5; ativo := true |} ])
         1 (Campo_ativo false))
      0 (Campo_y0 0.25).
Proof.
  apply atualizarCondicao_comuta. discriminate.
Defined.

(** Unticking one of two active rows leaves one active. *)
Lemma aoMudarAtivo_witness :
  exists cs' : list (Condicao float),
    aoMudarAtivo
      (estado_de [ {| y0 := 0.5; ativo := true |};
                   {| y0 := 1.5; ativo := true |} ])
      0 false
    = estado_de cs' /\
    condicoesAtivasCount cs' = 1%nat.
Proof.
  destruct (aoMudarAtivo_contagem
              [ {| y0 := 0.5; ativo := true |};
                {| y0 := 1.5; ativo := true |} ]
              0 {| y0 := 0.5; ativo := true |} false)
    as [cs' [Heq [Hcount _]]]; [reflexivity |].
  exists cs'. split; [exact Heq |]. simpl in Hcount. lia.
Defined.

(** An empty number field ([parseFloat] gives NaN) stores 0.1. *)
Lemma aoMudarY0_witness :
  exists (cs' : list (Condicao float)) (c' : Condicao float),
    aoMudarY0 (estado_de [ {| y0 := 0.5; ativo := true |} ]) 0 nan
    = estado_de cs' /\
    nth_error cs' 0 = Some c' /\
    y0 c' = 0x1.999999999999ap-4.
Proof.
  destruct (aoMudarY0_nunca_zero_nem_NaN
              [ {| y0 := 0.5; ativo := true |} ] 0
              {| y0 := 0.5; ativo := true |} nan)
    as [cs' [c' [Heq [Hn [_ [_ [Hy _]]]]]]]; [reflexivity |].
  exists cs', c'. split; [exact Heq |]. split; [exact Hn | exact Hy].
Defined.

End Cenario_float.
